(** * protoc-gen-frontend-api: configuration parsing, binding extraction,
      type-import grouping, rendering and the output-directory life cycle.

    The development follows [main.go] of the generator (the variant with the
    typed and the untyped output flavor).  Go strings are byte strings and are
    modelled by [string]; Go maps are modelled by [gmap] / [gset] and every
    [range] over a map is shown not to depend on the iteration order; the file
    system the generator writes to is modelled by an explicit state. *)

From Stdlib Require Import Strings.String Strings.Ascii.
From stdpp Require Import base strings list gmap sorting.

Set Default Proof Using "Type".

(** ** The part of Go's [strings] package the generator calls *)

Module GoStrings.

Definition bytes (s : string) : list ascii := list_ascii_of_string s.
Definition ofBytes (l : list ascii) : string := string_of_list_ascii l.

(** [Cut s sep]: the text before and after the first occurrence of the
    byte [sep], if there is one. *)
Fixpoint Cut (s : string) (sep : ascii) : option (string * string) :=
  match s with
  | EmptyString => None
  | String a s' =>
      if decide (a = sep) then Some (EmptyString, s')
      else match Cut s' sep with
           | Some (p, q) => Some (String a p, q)
           | None => None
           end
  end.

(** [strings.Split] for a one-byte separator: all the pieces, the empty
    string giving the single empty piece. *)
Fixpoint Split (s : string) (sep : ascii) : list string :=
  match s with
  | EmptyString => [EmptyString]
  | String a s' =>
      let r := Split s' sep in
      if decide (a = sep) then EmptyString :: r
      else String a (hd EmptyString r) :: tl r
  end.

(** [strings.SplitN] for a one-byte separator and [n >= 0]: at most [n]
    pieces, the last one being the unsplit remainder. *)
Fixpoint SplitN (s : string) (sep : ascii) (n : nat) : list string :=
  match n with
  | 0 => []
  | 1 => [s]
  | S n' =>
      match Cut s sep with
      | Some (p, q) => p :: SplitN q sep n'
      | None => [s]
      end
  end.

Fixpoint Join (elems : list string) (sep : string) : string :=
  match elems with
  | [] => EmptyString
  | [x] => x
  | x :: rest => x +:+ sep +:+ Join rest sep
  end.

(** *** Trimming *)

Fixpoint stripPrefix (p l : list ascii) : option (list ascii) :=
  match p, l with
  | [], _ => Some l
  | a :: p', b :: l' => if decide (a = b) then stripPrefix p' l' else None
  | _ :: _, [] => None
  end.

(** The first of the byte sequences [runes] that starts [l] is removed. *)
Definition stripRune (runes : list (list ascii)) (l : list ascii)
  : option (list ascii) :=
  foldr (λ p acc, match stripPrefix p l with
                  | Some r => Some r
                  | None => acc
                  end) None runes.

Fixpoint trimRunes (runes : list (list ascii)) (fuel : nat)
    (l : list ascii) : list ascii :=
  match fuel with
  | 0 => l
  | S fuel' =>
      match stripRune runes l with
      | Some r => trimRunes runes fuel' r
      | None => l
      end
  end.

Definition trimLeft (runes : list (list ascii)) (l : list ascii) :=
  trimRunes runes (length l) l.
Definition trimRight (runes : list (list ascii)) (l : list ascii) :=
  reverse (trimLeft (reverse <$> runes) (reverse l)).

(** The UTF-8 encodings of the runes for which [unicode.IsSpace] holds:
    tab, line feed, vertical tab, form feed, carriage return, space,
    U+0085, U+00A0, U+1680, U+2000 to U+200A, U+2028, U+2029, U+202F,
    U+205F and U+3000. *)
Definition spaceRunes : list (list ascii) :=
  map (map ascii_of_nat)
    [ [9]; [10]; [11]; [12]; [13]; [32];
      [194; 133]; [194; 160]; [225; 154; 128];
      [226; 128; 128]; [226; 128; 129]; [226; 128; 130]; [226; 128; 131];
      [226; 128; 132]; [226; 128; 133]; [226; 128; 134]; [226; 128; 135];
      [226; 128; 136]; [226; 128; 137]; [226; 128; 138];
      [226; 128; 168]; [226; 128; 169]; [226; 128; 175];
      [226; 129; 159]; [227; 128; 128] ].

(** [strings.TrimSpace]: leading and trailing white space removed. *)
Definition TrimSpace (s : string) : string :=
  ofBytes (trimRight spaceRunes (trimLeft spaceRunes (bytes s))).

Definition HasSuffix (s suffix : string) : bool :=
  bool_decide (is_Some (stripPrefix (reverse (bytes suffix))
                                     (reverse (bytes s)))).

Definition TrimSuffix (s suffix : string) : string :=
  match stripPrefix (reverse (bytes suffix)) (reverse (bytes s)) with
  | Some r => ofBytes (reverse r)
  | None => s
  end.

Definition TrimPrefix (s prefix : string) : string :=
  match stripPrefix (bytes prefix) (bytes s) with
  | Some r => ofBytes r
  | None => s
  end.

(** [strings.ReplaceAll] of one byte by another. *)
Fixpoint ReplaceAll (s : string) (old new : ascii) : string :=
  match s with
  | EmptyString => EmptyString
  | String a s' =>
      String (if decide (a = old) then new else a) (ReplaceAll s' old new)
  end.

Definition lowerByte (a : ascii) : ascii :=
  let n := nat_of_ascii a in
  if decide (65 ≤ n ∧ n ≤ 90) then ascii_of_nat (n + 32) else a.

(** [strings.ToLower] on ASCII text. *)
Fixpoint ToLower (s : string) : string :=
  match s with
  | EmptyString => EmptyString
  | String a s' => String (lowerByte a) (ToLower s')
  end.

(** [strings.Contains]. *)
Fixpoint containsBytes (sub l : list ascii) : bool :=
  bool_decide (is_Some (stripPrefix sub l))
  || match l with
     | [] => false
     | _ :: l' => containsBytes sub l'
     end.
Definition Contains (s substr : string) : bool :=
  containsBytes (bytes substr) (bytes s).

(** [sort.Strings]: increasing byte-wise lexicographic order. *)
Definition sortStrings (l : list string) : list string :=
  merge_sort String.le l.

End GoStrings.

Import GoStrings.

Definition nl : string := String (ascii_of_nat 10) EmptyString.

(** ** Configuration *)

Module OutputPathConfig.
Record t := mk {
  Path : string;
  ServiceImport : string
}.
End OutputPathConfig.

Module PluginConfig.
Record t := mk {
  ServiceImport : string;
  ServiceImportJS : string;
  TypesImportPath : string;
  OutputPaths : list OutputPathConfig.t;
  OutputPathsJS : list OutputPathConfig.t
}.
End PluginConfig.

Module MethodInfo.
Record t := mk {
  MethodName : string;
  HttpPath : string;
  HttpMethod : string;
  RequestType : string;
  ResponseType : string
}.
End MethodInfo.

Module ServiceInfo.
Record t := mk {
  ServiceName : string;
  ApiFileName : string;
  Methods : list MethodInfo.t;
  ServiceImport : string;
  TypesImportPath : string;
  TypeImports : gmap string (list string)
}.
End ServiceInfo.

Module HttpRule.
Record t := mk {
  Method : string;
  Path : string
}.
End HttpRule.

#[global] Instance OutputPathConfig_eq_dec : EqDecision OutputPathConfig.t.
Proof. solve_decision. Defined.
#[global] Instance PluginConfig_eq_dec : EqDecision PluginConfig.t.
Proof. solve_decision. Defined.
#[global] Instance MethodInfo_eq_dec : EqDecision MethodInfo.t.
Proof. solve_decision. Defined.
#[global] Instance HttpRule_eq_dec : EqDecision HttpRule.t.
Proof. solve_decision. Defined.

(** One round of the loop of [parseOutputPaths]. *)
Definition parseOutputPaths_step (paths : list OutputPathConfig.t)
    (pathStr : string) : list OutputPathConfig.t :=
  let pathStr := TrimSpace pathStr in
  if decide (pathStr = "") then paths
  else
    match SplitN pathStr ":" 2 with
    | [p; i] =>
        paths ++ [OutputPathConfig.mk (TrimSpace p) (TrimSpace i)]
    | _ => paths ++ [OutputPathConfig.mk pathStr ""]
    end.

Definition parseOutputPaths (value : string) : list OutputPathConfig.t :=
  foldl parseOutputPaths_step [] (Split value ";").

Definition defaultConfig : PluginConfig.t :=
  PluginConfig.mk "./api" "" "@/api/proto-types" [] [].

(** One round of the loop of [parsePluginOptions]: the [switch] on the key. *)
Definition parsePluginOptions_step (config : PluginConfig.t) (pair : string)
    : PluginConfig.t :=
  match SplitN pair "=" 2 with
  | [k; v] =>
      let key := TrimSpace k in
      let value := TrimSpace v in
      let '(PluginConfig.mk si sijs tip ops opsjs) := config in
      if decide (key = "service_import") then
        PluginConfig.mk value sijs tip ops opsjs
      else if decide (key = "service_import_js") then
        PluginConfig.mk si value tip ops opsjs
      else if decide (key = "types_import_path") then
        PluginConfig.mk si sijs value ops opsjs
      else if decide (key = "output_paths") then
        PluginConfig.mk si sijs tip (parseOutputPaths value) opsjs
      else if decide (key = "output_paths_js") then
        PluginConfig.mk si sijs tip ops (parseOutputPaths value)
      else config
  | _ => config
  end.

(** Errors: the [errno] of a failed system call, and the errors built by
    [fmt.Errorf] around one. *)
Inductive Errno := ENOENT | ENOTDIR | EISDIR.

Inductive error :=
  | PathError (op path : string) (errno : Errno)
  | Errorf (format arg : string) (cause : error).

#[global] Instance Errno_eq_dec : EqDecision Errno.
Proof. solve_decision. Defined.
#[global] Instance error_eq_dec : EqDecision error.
Proof. solve_decision. Defined.

Definition parsePluginOptions (param : string)
    : PluginConfig.t * option error :=
  let config := defaultConfig in
  if decide (param = "") then (config, None)
  else (foldl parsePluginOptions_step config (Split param ","), None).

(** ** Descriptors handed over by the protocol-buffer front end *)

(** The [pattern] oneof of [google.api.HttpRule]. *)
Inductive HttpRule_Pattern :=
  | HttpRule_Get (Get : string)
  | HttpRule_Put (Put : string)
  | HttpRule_Post (Post : string)
  | HttpRule_Delete (Delete : string)
  | HttpRule_Patch (Patch : string)
  | HttpRule_Custom (Kind Path : string).

Module annotations.
(** [Pattern] is [None] when no variant of the oneof is set. *)
Record HttpRule := mkHttpRule {
  Selector : string;
  Pattern : option HttpRule_Pattern;
  Body : string
}.
End annotations.

Module MethodOptions.
(** [Http] is the value of the extension [google.api.http], [None] when
    the method does not carry it. *)
Record t := mk { Http : option annotations.HttpRule }.
End MethodOptions.

Module FileDescriptor.
Record t := mk { Path : string }.
End FileDescriptor.

Module Message.
Record t := mk {
  Name : string;
  ParentFile : option FileDescriptor.t
}.
End Message.

Module Method.
Record t := mk {
  Name : string;
  Options : option MethodOptions.t;
  Input : option Message.t;
  Output : option Message.t
}.
End Method.

Module Service.
Record t := mk {
  Name : string;
  Methods : list Method.t
}.
End Service.

Definition extractHttpRule (method : Method.t) : option HttpRule.t :=
  match Method.Options method with
  | None => None
  | Some options =>
      match MethodOptions.Http options with
      | None => None
      | Some rule =>
          match annotations.Pattern rule with
          | None => None
          | Some (HttpRule_Post v) =>
              if decide (0 < String.length v) then Some (HttpRule.mk "post" v)
              else None
          | Some (HttpRule_Get v) =>
              if decide (0 < String.length v) then Some (HttpRule.mk "get" v)
              else None
          | Some (HttpRule_Put v) =>
              if decide (0 < String.length v) then Some (HttpRule.mk "put" v)
              else None
          | Some (HttpRule_Delete v) =>
              if decide (0 < String.length v)
              then Some (HttpRule.mk "delete" v) else None
          | Some (HttpRule_Patch v) =>
              if decide (0 < String.length v)
              then Some (HttpRule.mk "patch" v) else None
          | Some (HttpRule_Custom _ _) => None
          end
      end
  end.

Definition toCamelCase (s : string) : string :=
  match s with
  | EmptyString => s
  | String a s' => ToLower (String a EmptyString) +:+ s'
  end.

(** ** Type imports *)

(** [uniqueAndSort]: the set of the strings, ranged over in the order [keys],
    then sorted. *)
Definition uniqueAndSort_in (keys : list string) : list string :=
  sortStrings keys.

Definition uniqueAndSort (strs : list string) : list string :=
  let typeSet : gset string := list_to_set strs in
  uniqueAndSort_in (elements typeSet).

Definition protoFileToImportPath (protoFilePath : string) : string :=
  if decide (protoFilePath = "") then ""
  else
    let path := TrimSuffix protoFilePath ".proto" in
    let path := TrimPrefix path "./" in
    ReplaceAll path "\" "/".

Definition methodMap (methods : list MethodInfo.t) : gmap string bool :=
  foldl (λ m info, <[MethodInfo.MethodName info := true]> m) ∅ methods.

(** What one of the two [if] blocks of the scan records for a request or a
    response type. *)
Definition recordType (msg : option Message.t) (m : gmap string string)
    : gmap string string :=
  match msg with
  | None => m
  | Some msg =>
      match Message.ParentFile msg with
      | Some fileDesc =>
          <[Message.Name msg := FileDescriptor.Path fileDesc]> m
      | None => m
      end
  end.

Definition typeFileMap_step (mm : gmap string bool) (m : gmap string string)
    (method : Method.t) : gmap string string :=
  if default false (mm !! Method.Name method)
  then recordType (Method.Output method) (recordType (Method.Input method) m)
  else m.

Definition typeFileMap (service : Service.t) (methods : list MethodInfo.t)
    : gmap string string :=
  foldl (typeFileMap_step (methodMap methods)) ∅ (Service.Methods service).

(** The grouping loop, over the entries of [typeFileMap] in the order in
    which the [range] yields them. *)
Definition importMap_step (importMap : gmap string (list string))
    (entry : string * string) : gmap string (list string) :=
  let importPath := protoFileToImportPath entry.2 in
  if decide (importPath ≠ "")
  then <[importPath := (importMap !!! importPath) ++ [entry.1]]> importMap
  else importMap.

Definition importMap_of (entries : list (string * string))
    : gmap string (list string) :=
  foldl importMap_step ∅ entries.

Definition collectTypeImports_in (entries : list (string * string))
    : gmap string (list string) :=
  uniqueAndSort <$> importMap_of entries.

Definition collectTypeImports (service : Service.t)
    (methods : list MethodInfo.t) : gmap string (list string) :=
  collectTypeImports_in (map_to_list (typeFileMap service methods)).

(** ** Rendering *)

(** The loop over the sorted import paths of [generateTypeScriptCode]. *)
Definition writeTypeImport (data : ServiceInfo.t) (buf importPath : string)
    : string :=
  let typeNames := ServiceInfo.TypeImports data !!! importPath in
  let fullImportPath := ServiceInfo.TypesImportPath data in
  let fullImportPath :=
    if negb (HasSuffix fullImportPath "/") && bool_decide (importPath ≠ "")
    then fullImportPath +:+ "/" else fullImportPath in
  let fullImportPath := fullImportPath +:+ importPath in
  buf +:+ "import type { " +:+ Join typeNames ", " +:+ " } from '"
      +:+ fullImportPath +:+ "';" +:+ nl.

(** The import block, the keys of [TypeImports] being ranged over in the
    order [keys] before they are sorted. *)
Definition writeTypeImports_in (keys : list string) (data : ServiceInfo.t)
    (buf : string) : string :=
  if decide (0 < size (ServiceInfo.TypeImports data))
  then foldl (writeTypeImport data) buf (sortStrings keys)
  else buf.

Definition writeTypeImports (data : ServiceInfo.t) (buf : string) : string :=
  writeTypeImports_in (map_to_list (ServiceInfo.TypeImports data)).*1 data buf.

Definition writeMethodTS (n : nat) (buf : string)
    (im : nat * MethodInfo.t) : string :=
  let '(i, method) := im in
  buf +:+ "  " +:+ MethodInfo.MethodName method +:+ ": (data: "
      +:+ MethodInfo.RequestType method +:+ "): Promise<"
      +:+ MethodInfo.ResponseType method +:+ "> =>" +:+ nl
      +:+ "    service." +:+ MethodInfo.HttpMethod method +:+ "('"
      +:+ MethodInfo.HttpPath method +:+ "', data)"
      +:+ (if decide (i < n - 1) then "," +:+ nl else nl).

Definition generateTypeScriptCode (data : ServiceInfo.t) : string :=
  let buf := "import service from '" +:+ ServiceInfo.ServiceImport data
               +:+ "';" +:+ nl in
  let buf := writeTypeImports data buf in
  let buf := buf +:+ nl in
  let buf := buf +:+ "export const " +:+ ServiceInfo.ApiFileName data
               +:+ " = {" +:+ nl in
  let methods := ServiceInfo.Methods data in
  let buf := foldl (writeMethodTS (length methods)) buf
               (zip (seq 0 (length methods)) methods) in
  buf +:+ "};" +:+ nl +:+ nl +:+ "export default "
      +:+ ServiceInfo.ApiFileName data +:+ ";" +:+ nl.

Definition writeMethodJS (n : nat) (buf : string)
    (im : nat * MethodInfo.t) : string :=
  let '(i, method) := im in
  buf +:+ "    " +:+ MethodInfo.MethodName method
      +:+ ": (data) => service." +:+ MethodInfo.HttpMethod method +:+ "('"
      +:+ MethodInfo.HttpPath method +:+ "', data)"
      +:+ (if decide (i < n - 1) then "," +:+ nl else nl).

Definition generateJavaScriptCode (data : ServiceInfo.t) : string :=
  let buf := "import service from '" +:+ ServiceInfo.ServiceImport data
               +:+ "';" +:+ nl +:+ nl in
  let buf := buf +:+ "export const " +:+ ServiceInfo.ApiFileName data
               +:+ " = {" +:+ nl in
  let methods := ServiceInfo.Methods data in
  let buf := foldl (writeMethodJS (length methods)) buf
               (zip (seq 0 (length methods)) methods) in
  buf +:+ "};" +:+ nl +:+ nl +:+ "export default "
      +:+ ServiceInfo.ApiFileName data +:+ ";" +:+ nl.

(** ** The file system

    A tree of directories and regular files.  An entry is addressed by the
    list of names that leads to it from the working directory, which is the
    entry [[]].  Permissions, links, the [..] name and the refusals that are
    special to the working directory are outside the model: a system call
    fails only when the shape of the tree makes it fail. *)

Inductive node :=
  | Dir
  | File (data : string).

#[global] Instance node_eq_dec : EqDecision node.
Proof. solve_decision. Defined.

Abbreviation FS := (gmap (list string) node).

(** The names of a path: the pieces between the separators, the empty ones
    and [.] left out. *)
Definition resolve (name : string) : list string :=
  filter (λ c, c ≠ "" ∧ c ≠ ".") (Split name "/").

(** The path walk of the kernel, from the entry [cur] along [rest]. *)
Fixpoint walk (fs : FS) (cur rest : list string) : node + Errno :=
  match fs !! cur with
  | None => inr ENOENT
  | Some n =>
      match rest with
      | [] => inl n
      | x :: rest' =>
          match n with
          | Dir => walk fs (cur ++ [x]) rest'
          | File _ => inr ENOTDIR
          end
      end
  end.

Definition os_Stat (name : string) (fs : FS) : node + error :=
  if decide (name = "") then inr (PathError "stat" name ENOENT)
  else match walk fs [] (resolve name) with
       | inl n => inl n
       | inr e => inr (PathError "stat" name e)
       end.

(** [os.IsNotExist]: errors built by [fmt.Errorf] with [%v] are not
    unwrapped. *)
Definition os_IsNotExist (err : error) : bool :=
  match err with
  | PathError _ _ ENOENT => true
  | _ => false
  end.

(** [os.RemoveAll]: the entry and everything below it; nothing to do, and no
    error, when the path does not exist. *)
Definition os_RemoveAll (path : string) (fs : FS) : option error * FS :=
  if decide (path = "") then (None, fs)
  else match walk fs [] (resolve path) with
       | inl _ =>
           (None, filter (λ kv, ¬ (resolve path `prefix_of` kv.1)) fs)
       | inr ENOENT => (None, fs)
       | inr e => (Some (PathError "unlinkat" path e), fs)
       end.

(** The directories along [rest] below [cur] are created where they are
    missing. *)
Fixpoint mkdirAll (fs : FS) (cur rest : list string) : option Errno * FS :=
  match fs !! cur with
  | Some (File _) => (Some ENOTDIR, fs)
  | here =>
      let fs' := match here with None => <[cur := Dir]> fs | _ => fs end in
      match rest with
      | [] => (None, fs')
      | x :: rest' => mkdirAll fs' (cur ++ [x]) rest'
      end
  end.

Definition os_MkdirAll (path : string) (fs : FS) : option error * FS :=
  if decide (path = "") then (Some (PathError "mkdir" path ENOENT), fs)
  else match mkdirAll fs [] (resolve path) with
       | (None, fs') => (None, fs')
       | (Some e, fs') => (Some (PathError "mkdir" path e), fs')
       end.

(** [os.WriteFile]: the file is created or replaced inside an existing
    directory. *)
Definition os_WriteFile (name data : string) (fs : FS) : option error * FS :=
  if decide (name = "") then (Some (PathError "open" name ENOENT), fs)
  else
    let p := resolve name in
    match walk fs [] (removelast p) with
    | inr e => (Some (PathError "open" name e), fs)
    | inl (File _) => (Some (PathError "open" name ENOTDIR), fs)
    | inl Dir =>
        match fs !! p with
        | Some Dir => (Some (PathError "open" name EISDIR), fs)
        | _ => (None, <[p := File data]> fs)
        end
    end.

(** [filepath.Join] of a directory and a file name; the cleaning of the
    result is left to [resolve]. *)
Definition filepath_Join (dir file : string) : string :=
  if decide (dir = "") then file
  else if decide (file = "") then dir
  else dir +:+ "/" +:+ file.

Definition clearOutputDir (dir : string) (fs : FS) : option error * FS :=
  if decide (dir = "") then (None, fs)
  else
    match os_Stat dir fs with
    | inr err => if os_IsNotExist err then (None, fs) else (Some err, fs)
    | inl _ =>
        match os_RemoveAll dir fs with
        | (Some err, fs1) => (Some err, fs1)
        | (None, fs1) => os_MkdirAll dir fs1
        end
    end.

(** ** Generation of the files of one service *)

(** How a call ends: it returns ([nil] or an error), or a nil descriptor is
    dereferenced. *)
Inductive outcome :=
  | Return (err : option error)
  | Panic.

(** The scan of the methods of the service: [None] when the request or the
    response descriptor of a bound method is nil. *)
Definition methodInfos_step (acc : option (list MethodInfo.t))
    (method : Method.t) : option (list MethodInfo.t) :=
  match acc with
  | None => None
  | Some methods =>
      match extractHttpRule method with
      | None => Some methods
      | Some httpRule =>
          match Method.Input method, Method.Output method with
          | Some input, Some output =>
              Some (methods ++
                [MethodInfo.mk (Method.Name method) (HttpRule.Path httpRule)
                   (ToLower (HttpRule.Method httpRule))
                   (Message.Name input) (Message.Name output)])
          | _, _ => None
          end
      end
  end.

Definition methodInfos (service : Service.t) : option (list MethodInfo.t) :=
  foldl methodInfos_step (Some []) (Service.Methods service).

(** The loop over the typed targets. *)
Fixpoint writeTS (config : PluginConfig.t) (serviceName apiFileName : string)
    (methods : list MethodInfo.t) (typeImports : gmap string (list string))
    (targets : list OutputPathConfig.t) (fs : FS) : option error * FS :=
  match targets with
  | [] => (None, fs)
  | outputPathConfig :: rest =>
      let serviceImport := OutputPathConfig.ServiceImport outputPathConfig in
      let serviceImport :=
        if decide (serviceImport = "")
        then PluginConfig.ServiceImport config else serviceImport in
      let data :=
        ServiceInfo.mk serviceName apiFileName methods serviceImport
          (PluginConfig.TypesImportPath config) typeImports in
      let code := generateTypeScriptCode data in
      let fileName := toCamelCase serviceName +:+ "Api.ts" in
      let dir := OutputPathConfig.Path outputPathConfig in
      match os_Stat dir fs with
      | inr err =>
          if os_IsNotExist err
          then writeTS config serviceName apiFileName methods typeImports
                 rest fs
          else (Some (Errorf "检查输出目录失败 %s: %v" dir err), fs)
      | inl _ =>
          let fullPath := filepath_Join dir fileName in
          match os_WriteFile fullPath code fs with
          | (Some err, fs') =>
              (Some (Errorf "写入文件失败 %s: %v" fullPath err), fs')
          | (None, fs') =>
              writeTS config serviceName apiFileName methods typeImports
                rest fs'
          end
      end
  end.

(** The loop over the untyped targets. *)
Fixpoint writeJS (config : PluginConfig.t) (serviceName apiFileName : string)
    (methods : list MethodInfo.t)
    (targets : list OutputPathConfig.t) (fs : FS) : option error * FS :=
  match targets with
  | [] => (None, fs)
  | outputPathConfig :: rest =>
      let serviceImport := OutputPathConfig.ServiceImport outputPathConfig in
      let serviceImport :=
        if decide (serviceImport = "")
        then PluginConfig.ServiceImportJS config else serviceImport in
      let serviceImport :=
        if decide (serviceImport = "")
        then PluginConfig.ServiceImport config else serviceImport in
      let data :=
        ServiceInfo.mk serviceName apiFileName methods serviceImport "" ∅ in
      let code := generateJavaScriptCode data in
      let fileName := toCamelCase serviceName +:+ "Api.js" in
      let dir := OutputPathConfig.Path outputPathConfig in
      match os_Stat dir fs with
      | inr err =>
          if os_IsNotExist err
          then writeJS config serviceName apiFileName methods rest fs
          else (Some (Errorf "检查输出目录失败(JS) %s: %v" dir err), fs)
      | inl _ =>
          let fullPath := filepath_Join dir fileName in
          match os_WriteFile fullPath code fs with
          | (Some err, fs') =>
              (Some (Errorf "写入文件失败(JS) %s: %v" fullPath err), fs')
          | (None, fs') =>
              writeJS config serviceName apiFileName methods rest fs'
          end
      end
  end.

(** [generateFrontendApi]; its arguments [gen] and [file] are not used by the
    body and are left out. *)
Definition generateFrontendApi (service : Service.t) (config : PluginConfig.t)
    (fs : FS) : outcome * FS :=
  let serviceName := TrimSuffix (Service.Name service) "Service" in
  let apiFileName := toCamelCase serviceName +:+ "Api" in
  match methodInfos service with
  | None => (Panic, fs)
  | Some methods =>
      if decide (length methods = 0) then (Return None, fs)
      else
        let typeImports := collectTypeImports service methods in
        let allOutputPaths := PluginConfig.OutputPaths config in
        if decide (length allOutputPaths = 0) then (Return None, fs)
        else
          match writeTS config serviceName apiFileName methods typeImports
                  allOutputPaths fs with
          | (Some err, fs1) => (Return (Some err), fs1)
          | (None, fs1) =>
              match writeJS config serviceName apiFileName methods
                      (PluginConfig.OutputPathsJS config) fs1 with
              | (err, fs2) => (Return err, fs2)
              end
          end
  end.

(** ** The scenario of the specification: [UserService] with [GetUser] *)

Definition userMessage (name : string) : Message.t :=
  Message.mk name (Some (FileDescriptor.mk "proto/user/user.proto")).

Definition httpOption (pattern : HttpRule_Pattern) : option MethodOptions.t :=
  Some (MethodOptions.mk (Some (annotations.mkHttpRule "" (Some pattern) "*"))).

Definition getUser : Method.t :=
  Method.mk "GetUser" (httpOption (HttpRule_Post "/api/UserService/GetUser"))
    (Some (userMessage "GetUserReq")) (Some (userMessage "GetUserResp")).

Definition userService : Service.t := Service.mk "UserService" [getUser].

Definition getUserInfo : MethodInfo.t :=
  MethodInfo.mk "GetUser" "/api/UserService/GetUser" "post"
    "GetUserReq" "GetUserResp".

(** A project in which the two target directories exist. *)
Definition projectFS : FS :=
  <[ ["src"; "js"] := Dir ]>
    (<[ ["src"; "api"] := Dir ]> (<[ ["src"] := Dir ]> (<[ [] := Dir ]> ∅))).

Definition typedOptions : string :=
  "service_import=@/api/api,output_paths=src/api,types_import_path=@/api/proto-types".

Definition untypedOptions : string :=
  "output_paths_js=src/js,service_import_js=@/api/api.js".

Definition userApi_ts : string :=
  "import service from '@/api/api';" +:+ nl +:+
  "import type { GetUserReq, GetUserResp } from '@/api/proto-types/proto/user/user';" +:+ nl +:+
  nl +:+
  "export const userApi = {" +:+ nl +:+
  "  GetUser: (data: GetUserReq): Promise<GetUserResp> =>" +:+ nl +:+
  "    service.post('/api/UserService/GetUser', data)" +:+ nl +:+
  "};" +:+ nl +:+
  nl +:+
  "export default userApi;" +:+ nl.

Definition userApi_js : string :=
  "import service from '@/api/api.js';" +:+ nl +:+
  nl +:+
  "export const userApi = {" +:+ nl +:+
  "    GetUser: (data) => service.post('/api/UserService/GetUser', data)" +:+ nl +:+
  "};" +:+ nl +:+
  nl +:+
  "export default userApi;" +:+ nl.

(** What [generateFrontendApi] hands to the typed renderer in the scenario. *)
Definition userServiceInfo : ServiceInfo.t :=
  ServiceInfo.mk "User" "userApi" [getUserInfo] "@/api/api"
    "@/api/proto-types" (collectTypeImports userService [getUserInfo]).

(** The entry of [GetUser] written on one line. *)
Definition getUserEntry_one_line : string :=
  "GetUser: (data: GetUserReq): Promise<GetUserResp> => service.post('/api/UserService/GetUser', data)".

(** A service none of whose methods carries a usable binding. *)
Definition pingService : Service.t :=
  Service.mk "PingService"
    [ Method.mk "Ping" None
        (Some (userMessage "PingReq")) (Some (userMessage "PingResp"));
      Method.mk "Echo" (httpOption (HttpRule_Get ""))
        (Some (userMessage "EchoReq")) (Some (userMessage "EchoResp")) ].

(** ** Auxiliary notions for the type imports *)

(** What the scan records for one request or response type. *)
Definition recordedOf (msg : option Message.t) : list (string * string) :=
  match msg with
  | Some msg =>
      match Message.ParentFile msg with
      | Some fileDesc => [(Message.Name msg, FileDescriptor.Path fileDesc)]
      | None => []
      end
  | None => []
  end.

(** The type names with their files in the order in which the scan of
    [collectTypeImports] records them. *)
Definition recordedTypes (service : Service.t) (methods : list MethodInfo.t)
    : list (string * string) :=
  flat_map
    (λ method,
       if default false (methodMap methods !! Method.Name method)
       then recordedOf (Method.Input method)
              ++ recordedOf (Method.Output method)
       else [])
    (Service.Methods service).

(** The assignment [typeFileMap[typeName] = file]. *)
Definition recordEntry (m : gmap string string) (e : string * string)
    : gmap string string :=
  <[e.1 := e.2]> m.

(** No simple type name is recorded with two different files. *)
Definition consistentFiles (recorded : list (string * string)) : Prop :=
  ∀ n f1 f2, (n, f1) ∈ recorded → (n, f2) ∈ recorded → f1 = f2.

(** The type names of the entries whose file gives the import path. *)
Definition namesFor (importPath : string) (entries : list (string * string))
    : list string :=
  (filter (λ e, protoFileToImportPath e.2 = importPath) entries).*1.

(** Two methods whose request types have the same simple name [Item] and are
    declared in different files. *)
Definition messageIn (file name : string) : Message.t :=
  Message.mk name (Some (FileDescriptor.mk file)).

Definition shopService : Service.t :=
  Service.mk "ShopService"
    [ Method.mk "ListA" (httpOption (HttpRule_Post "/shop/a"))
        (Some (messageIn "proto/a/a.proto" "Item"))
        (Some (messageIn "proto/a/a.proto" "ListAResp"));
      Method.mk "ListB" (httpOption (HttpRule_Post "/shop/b"))
        (Some (messageIn "proto/b/b.proto" "Item"))
        (Some (messageIn "proto/b/b.proto" "ListBResp")) ].

(** The same service with its two methods declared in the other order. *)
Definition shopService_swapped : Service.t :=
  Service.mk "ShopService" (reverse (Service.Methods shopService)).

(** A service whose types have four different simple names. *)
Definition mixedService : Service.t :=
  Service.mk "MixedService"
    [ getUser;
      Method.mk "ListB" (httpOption (HttpRule_Post "/shop/b"))
        (Some (messageIn "proto/b/b.proto" "Item"))
        (Some (messageIn "proto/b/b.proto" "ListBResp")) ].

Definition mixedMethods : list MethodInfo.t :=
  [ getUserInfo; MethodInfo.mk "ListB" "/shop/b" "post" "Item" "ListBResp" ].

Definition shopMethods : list MethodInfo.t :=
  [ MethodInfo.mk "ListA" "/shop/a" "post" "Item" "ListAResp";
    MethodInfo.mk "ListB" "/shop/b" "post" "Item" "ListBResp" ].

(** ** Auxiliary notions for the file system *)

(** Every entry but the working directory lies in a directory. *)
Definition wellFormed (fs : FS) : Prop :=
  ∀ p x, is_Some (fs !! (p ++ [x])) → fs !! p = Some Dir.

(** The tree without the entry [p] and what is below it. *)
Definition without (p : list string) (fs : FS) : FS :=
  filter (λ kv, ¬ p `prefix_of` kv.1) fs.

(** The tree in which [p] is an empty directory and the rest is as before. *)
Definition resetDir (p : list string) (fs : FS) : FS :=
  <[p := Dir]> (without p fs).

(** A project with a stale file in one of its target directories, and a
    regular file [notes]. *)
Definition staleFS : FS :=
  <[ ["notes"] := File "todo" ]>
    (<[ ["src"; "api"; "oldApi.ts"] := File "export default {};" ]> projectFS).

(** ** The entry point *)

Module File.
Record t := mk {
  Generate : bool;
  Services : list Service.t
}.
End File.

(** One of the two loops of [main] that reset the target directories; the
    error of a failed reset is wrapped with [format]. *)
Fixpoint clearOutputDirs (format : string)
    (targets : list OutputPathConfig.t) (fs : FS) : option error * FS :=
  match targets with
  | [] => (None, fs)
  | outputPath :: rest =>
      match clearOutputDir (OutputPathConfig.Path outputPath) fs with
      | (Some err, fs') =>
          (Some (Errorf format (OutputPathConfig.Path outputPath) err), fs')
      | (None, fs') => clearOutputDirs format rest fs'
      end
  end.

(** The loop of [main] over the services of one file. *)
Fixpoint generateServices (services : list Service.t)
    (config : PluginConfig.t) (fs : FS) : outcome * FS :=
  match services with
  | [] => (Return None, fs)
  | service :: rest =>
      match generateFrontendApi service config fs with
      | (Return None, fs') => generateServices rest config fs'
      | r => r
      end
  end.

(** The loop of [main] over the files of the request. *)
Fixpoint generateFiles (files : list File.t)
    (config : PluginConfig.t) (fs : FS) : outcome * FS :=
  match files with
  | [] => (Return None, fs)
  | f :: rest =>
      if negb (File.Generate f) then generateFiles rest config fs
      else
        match generateServices (File.Services f) config fs with
        | (Return None, fs') => generateFiles rest config fs'
        | r => r
        end
  end.

(** The function [main] hands to [protogen]: [parameter] is
    [gen.Request.Parameter] and [files] is [gen.Files]. *)
Definition run (parameter : option string) (files : list File.t) (fs : FS)
    : outcome * FS :=
  let param := default "" parameter in
  match parsePluginOptions param with
  | (_, Some err) =>
      (Return (Some (Errorf "解析插件参数失败: %v" "" err)), fs)
  | (config, None) =>
      match clearOutputDirs "清空输出目录失败 %s: %v"
              (PluginConfig.OutputPaths config) fs with
      | (Some err, fs1) => (Return (Some err), fs1)
      | (None, fs1) =>
          match clearOutputDirs "清空输出目录失败(JS) %s: %v"
                  (PluginConfig.OutputPathsJS config) fs1 with
          | (Some err, fs2) => (Return (Some err), fs2)
          | (None, fs2) => generateFiles files config fs2
          end
      end
  end.

(** ** Auxiliary notions for the rendered text *)


Definition entryTS (method : MethodInfo.t) : string :=
  "  " +:+ MethodInfo.MethodName method +:+ ": (data: "
    +:+ MethodInfo.RequestType method +:+ "): Promise<"
    +:+ MethodInfo.ResponseType method +:+ "> =>" +:+ nl
    +:+ "    service." +:+ MethodInfo.HttpMethod method +:+ "('"
    +:+ MethodInfo.HttpPath method +:+ "', data)".

(** The lines of the entries: a comma after every entry but the last. *)
Definition entryLines (entries : list string) : string :=
  match entries with
  | [] => ""
  | _ => Join entries ("," +:+ nl) +:+ nl
  end.

(** The type-only import statement of one group. *)
Definition importLine (root importPath : string) (typeNames : list string)
    : string :=
  "import type { " +:+ Join typeNames ", " +:+ " } from '"
    +:+ root
    +:+ (if negb (HasSuffix root "/") && bool_decide (importPath ≠ "")
         then "/" else "")
    +:+ importPath +:+ "';" +:+ nl.

(** The lines put one after the other. *)
Definition concatLines (lines : list string) : string :=
  foldr String.append "" lines.

(** The five verbs. *)
Definition verbs : list string := ["post"; "get"; "put"; "delete"; "patch"].

(** A method has a usable binding. *)
Definition bound (method : Method.t) : Prop :=
  is_Some (extractHttpRule method).

#[global] Instance bound_dec method : Decision (bound method).
Proof. unfold bound. apply _. Defined.

(** What the scan of [generateFrontendApi] collects for a bound method. *)
Definition bindingOf (info : MethodInfo.t) (method : Method.t) : Prop :=
  ∃ rule input output,
    extractHttpRule method = Some rule ∧
    Method.Input method = Some input ∧ Method.Output method = Some output ∧
    info = MethodInfo.mk (Method.Name method) (HttpRule.Path rule)
             (HttpRule.Method rule) (Message.Name input)
             (Message.Name output).

(** The names of the two files of a service. *)
Definition apiFile (service : Service.t) (ext : string) : string :=
  toCamelCase (TrimSuffix (Service.Name service) "Service") +:+ "Api" +:+ ext.

(** What the typed and the untyped renderer are given for a target. *)
Definition typedData (service : Service.t) (config : PluginConfig.t)
    (methods : list MethodInfo.t) (target : OutputPathConfig.t)
    : ServiceInfo.t :=
  let serviceName := TrimSuffix (Service.Name service) "Service" in
  ServiceInfo.mk serviceName (toCamelCase serviceName +:+ "Api") methods
    (if decide (OutputPathConfig.ServiceImport target = "")
     then PluginConfig.ServiceImport config
     else OutputPathConfig.ServiceImport target)
    (PluginConfig.TypesImportPath config)
    (collectTypeImports service methods).

Definition untypedData (service : Service.t) (config : PluginConfig.t)
    (methods : list MethodInfo.t) (target : OutputPathConfig.t)
    : ServiceInfo.t :=
  let serviceName := TrimSuffix (Service.Name service) "Service" in
  ServiceInfo.mk serviceName (toCamelCase serviceName +:+ "Api") methods
    (if decide (OutputPathConfig.ServiceImport target = "")
     then (if decide (PluginConfig.ServiceImportJS config = "")
           then PluginConfig.ServiceImport config
           else PluginConfig.ServiceImportJS config)
     else OutputPathConfig.ServiceImport target)
    "" ∅.

(** The paths a call of [generateFrontendApi] may write to. *)
Definition outputFiles (service : Service.t) (config : PluginConfig.t)
    : list (list string) :=
  ((λ t, resolve (filepath_Join (OutputPathConfig.Path t)
                    (apiFile service ".ts")))
     <$> PluginConfig.OutputPaths config)
  ++ ((λ t, resolve (filepath_Join (OutputPathConfig.Path t)
                       (apiFile service ".js")))
        <$> PluginConfig.OutputPathsJS config).

(** A target in which the file [file] can be written: its path is a
    directory and no directory has the name of the file. *)
Definition writable (file : string) (fs : FS) (t : OutputPathConfig.t)
    : Prop :=
  os_Stat (OutputPathConfig.Path t) fs = inl Dir ∧
  fs !! (resolve (OutputPathConfig.Path t) ++ [file]) ≠ Some Dir.

(** The tree after the file [file] with the text [code t] is written into
    the target [t]. *)
Definition withFile (code : OutputPathConfig.t → string) (file : string)
    (fs : FS) (t : OutputPathConfig.t) : FS :=
  <[resolve (OutputPathConfig.Path t) ++ [file] := File (code t)]> fs.

(** A target whose directory [os.Stat] reports as not existing. *)
Definition missing (fs : FS) (t : OutputPathConfig.t) : Prop :=
  ∃ err, os_Stat (OutputPathConfig.Path t) fs = inr err
         ∧ os_IsNotExist err = true.

(** From [fs] to [fs'] nothing happened but the writing of regular files
    at paths of [paths]. *)
Definition onlyFiles (paths : list (list string)) (fs fs' : FS) : Prop :=
  ∀ k, fs' !! k = fs !! k
       ∨ (k ∈ paths ∧ ∃ data, fs' !! k = Some (File data)).

(** The entry of the list grammar that stands for a target: the path, and
    the override after a [:] when there is one. *)
Definition targetEntry (t : OutputPathConfig.t) : string :=
  if decide (OutputPathConfig.ServiceImport t = "")
  then OutputPathConfig.Path t
  else OutputPathConfig.Path t +:+ ":" +:+ OutputPathConfig.ServiceImport t.

(** A target that the list grammar can express: a trimmed path that is
    not empty and has neither [;] nor [:], and a trimmed override without
    [;]. *)
Definition expressible (t : OutputPathConfig.t) : Prop :=
  TrimSpace (OutputPathConfig.Path t) = OutputPathConfig.Path t ∧
  OutputPathConfig.Path t ≠ "" ∧
  (";"%char ∉ bytes (OutputPathConfig.Path t)) ∧
  (":"%char ∉ bytes (OutputPathConfig.Path t)) ∧
  TrimSpace (OutputPathConfig.ServiceImport t)
    = OutputPathConfig.ServiceImport t ∧
  ";"%char ∉ bytes (OutputPathConfig.ServiceImport t).

(** A request with the two services of the scenarios. *)
Definition requestFiles : list File.t :=
  [ File.mk true [userService]; File.mk false [shopService];
    File.mk true [pingService] ].

(** * Properties *)

(** A decidable proposition about closed terms, settled by evaluation. *)
Ltac by_compute :=
  match goal with
  | |- ?P =>
      let d := constr:(_ : Decision P) in
      apply (@bool_decide_unpack P d); vm_compute; exact I
  end.

(** ** Byte strings *)

Lemma ofBytes_bytes s : ofBytes (bytes s) = s.
Proof. apply string_of_list_ascii_of_string. Qed.

Lemma bytes_ofBytes l : bytes (ofBytes l) = l.
Proof. apply list_ascii_of_string_of_list_ascii. Qed.

Lemma bytes_app s1 s2 : bytes (s1 +:+ s2) = bytes s1 ++ bytes s2.
Proof.
  induction s1 as [|a s1 IH]; [done|].
  change (bytes (String a s1 +:+ s2)) with (a :: bytes (s1 +:+ s2)).
  by rewrite IH.
Qed.

Lemma append_String a s1 s2 : String a s1 +:+ s2 = String a (s1 +:+ s2).
Proof. done. Qed.

Lemma append_empty_l s : "" +:+ s = s.
Proof. done. Qed.

Lemma append_assoc s1 s2 s3 : (s1 +:+ s2) +:+ s3 = s1 +:+ (s2 +:+ s3).
Proof.
  induction s1 as [|a s1 IH]; [done|].
  rewrite !append_String. by rewrite IH.
Qed.

Lemma append_empty_r s : s +:+ "" = s.
Proof.
  induction s as [|a s IH]; [done|]. rewrite append_String. by rewrite IH.
Qed.

Lemma Split_nonempty s sep : Split s sep ≠ [].
Proof. destruct s; simpl; [done|]. by case_decide. Qed.

Lemma Split_app s1 s2 sep :
  Split (s1 +:+ String sep s2) sep = Split s1 sep ++ Split s2 sep.
Proof.
  induction s1 as [|a s1 IH].
  - rewrite append_empty_l. simpl. by rewrite decide_True.
  - rewrite append_String. simpl. rewrite IH.
    pose proof (Split_nonempty s1 sep) as Hne.
    destruct (Split s1 sep); [done|]. by case_decide.
Qed.

Lemma Split_absent s sep : sep ∉ bytes s → Split s sep = [s].
Proof.
  induction s as [|a s IH]; [done|]. cbn. intros Hn.
  apply not_elem_of_cons in Hn as [Hne Hn].
  rewrite decide_False by done. by rewrite IH.
Qed.

Lemma Cut_absent s sep : sep ∉ bytes s → Cut s sep = None.
Proof.
  induction s as [|a s IH]; [done|]. cbn. intros Hn.
  apply not_elem_of_cons in Hn as [Hne Hn].
  rewrite decide_False by done. by rewrite IH.
Qed.

Lemma Cut_first p q sep :
  sep ∉ bytes p → Cut (p +:+ String sep q) sep = Some (p, q).
Proof.
  induction p as [|a p IH].
  - intros _. rewrite append_empty_l. simpl. by rewrite decide_True.
  - cbn. intros Hn. apply not_elem_of_cons in Hn as [Hne Hn].
    rewrite append_String. simpl.
    rewrite decide_False by done. by rewrite IH.
Qed.

Lemma Cut_Some s sep p q :
  Cut s sep = Some (p, q) → s = p +:+ String sep q ∧ sep ∉ bytes p.
Proof.
  revert p. induction s as [|a s IH]; intros p; [done|]. simpl.
  case_decide as Ha.
  - intros [= <- <-]. subst. split; [done|]. cbn. apply not_elem_of_nil.
  - destruct (Cut s sep) as [[p' q']|] eqn:Hc; [|done].
    intros [= <- <-]. destruct (IH _ eq_refl) as [-> Hn].
    split; [done|]. cbn. apply not_elem_of_cons. auto.
Qed.

Lemma Cut_None s sep : Cut s sep = None → sep ∉ bytes s.
Proof.
  induction s as [|a s IH]; simpl; [intros _; cbn; apply not_elem_of_nil|].
  case_decide as Ha; [done|].
  destruct (Cut s sep) as [[p' q']|] eqn:Hc; [done|].
  intros _. cbn. apply not_elem_of_cons. auto.
Qed.

(** *** Trimming removes what it is meant to remove, and nothing twice *)

Lemma stripPrefix_Some p l r : stripPrefix p l = Some r ↔ l = p ++ r.
Proof.
  revert l. induction p as [|a p IH]; intros l; simpl.
  - split; [by intros [= ->]|by intros ->].
  - destruct l as [|b l]; [done|]. case_decide as Hab.
    + subst. rewrite IH. split; [by intros ->|by intros [= ->]].
    + split; [done|]. intros [= ? ?]. done.
Qed.

Lemma stripRune_Some runes l r :
  stripRune runes l = Some r → ∃ p, p ∈ runes ∧ l = p ++ r.
Proof.
  unfold stripRune. induction runes as [|p ps IH]; simpl; [done|].
  destruct (stripPrefix p l) as [r'|] eqn:Hp.
  - intros [= ->]. exists p. split; [left|]. by apply stripPrefix_Some.
  - intros (p' & ? & ?)%IH. exists p'. split; [by right|done].
Qed.

Lemma stripRune_None runes l p r :
  stripRune runes l = None → p ∈ runes → l ≠ p ++ r.
Proof.
  unfold stripRune. induction runes as [|p' ps IH]; simpl.
  - by intros _ ?%elem_of_nil.
  - destruct (stripPrefix p' l) as [r'|] eqn:Hp; [done|].
    intros Hn [->|Hin]%elem_of_cons; [|by apply IH].
    intros Heq%stripPrefix_Some. congruence.
Qed.

Section trimming.
Variable runes : list (list ascii).
Hypothesis runes_nonempty : Forall (λ r, r ≠ []) runes.

Lemma stripRune_shorter l r :
  stripRune runes l = Some r → length r < length l.
Proof using runes_nonempty.
  intros (p & Hin & ->)%stripRune_Some.
  rewrite Forall_forall in runes_nonempty.
  specialize (runes_nonempty p Hin).
  destruct p; [done|]. rewrite length_app. simpl. lia.
Qed.

Lemma trimRunes_fixed fuel l :
  stripRune runes l = None → trimRunes runes fuel l = l.
Proof using Type. destruct fuel; simpl; [done|]. by intros ->. Qed.

Lemma trimRunes_done fuel l :
  length l ≤ fuel → stripRune runes (trimRunes runes fuel l) = None.
Proof using runes_nonempty.
  revert l. induction fuel as [|fuel IH]; intros l Hlen; simpl.
  - destruct l; [|simpl in Hlen; lia].
    destruct (stripRune runes []) eqn:Hs; [|done].
    apply stripRune_shorter in Hs. simpl in Hs. lia.
  - destruct (stripRune runes l) as [r|] eqn:Hs; [|done].
    apply IH. apply stripRune_shorter in Hs. lia.
Qed.

Lemma trimRunes_suffix fuel l : trimRunes runes fuel l `suffix_of` l.
Proof using Type.
  revert l. induction fuel as [|fuel IH]; intros l; simpl; [done|].
  destruct (stripRune runes l) as [r|] eqn:Hs; [|done].
  apply stripRune_Some in Hs as (p & _ & ->).
  etrans; [apply IH|]. by apply suffix_app_r.
Qed.

Lemma trimLeft_done l : stripRune runes (trimLeft runes l) = None.
Proof using runes_nonempty. by apply trimRunes_done. Qed.

Lemma trimLeft_fixed l : stripRune runes l = None → trimLeft runes l = l.
Proof using Type. apply trimRunes_fixed. Qed.

Lemma trimLeft_idemp l : trimLeft runes (trimLeft runes l) = trimLeft runes l.
Proof using runes_nonempty. apply trimLeft_fixed, trimLeft_done. Qed.

Lemma stripRune_prefix_None l l' :
  stripRune runes l = None → l' `prefix_of` l → stripRune runes l' = None.
Proof using Type.
  intros Hn [k ->]. destruct (stripRune runes l') as [r|] eqn:Hs; [|done].
  apply stripRune_Some in Hs as (p & Hin & ->).
  exfalso. eapply (stripRune_None _ _ p (r ++ k)); [done..|].
  by rewrite (assoc_L (++)).
Qed.

End trimming.

Lemma reversed_nonempty runes :
  Forall (λ r : list ascii, r ≠ []) runes →
  Forall (λ r : list ascii, r ≠ []) (reverse <$> runes).
Proof.
  intros H. apply Forall_fmap. eapply Forall_impl; [done|].
  intros r Hr. simpl. destruct r; [done|]. rewrite reverse_cons.
  by destruct (reverse r).
Qed.

Lemma trimRight_prefix runes l : trimRight runes l `prefix_of` l.
Proof.
  unfold trimRight, trimLeft.
  destruct (trimRunes_suffix (reverse <$> runes) (length (reverse l))
              (reverse l)) as [k Hk].
  exists (reverse k).
  apply (f_equal reverse) in Hk.
  by rewrite reverse_involutive, reverse_app in Hk.
Qed.

Lemma trimRight_idemp runes l :
  Forall (λ r : list ascii, r ≠ []) runes →
  trimRight runes (trimRight runes l) = trimRight runes l.
Proof.
  intros H. unfold trimRight. rewrite reverse_involutive.
  by rewrite trimLeft_idemp by by apply reversed_nonempty.
Qed.

Lemma spaceRunes_nonempty : Forall (λ r : list ascii, r ≠ []) spaceRunes.
Proof. by repeat constructor. Qed.

Lemma TrimSpace_idemp s : TrimSpace (TrimSpace s) = TrimSpace s.
Proof.
  unfold TrimSpace. rewrite bytes_ofBytes. f_equal.
  set (t := trimLeft spaceRunes (bytes s)).
  rewrite (trimLeft_fixed _ (trimRight spaceRunes t)).
  - apply trimRight_idemp, spaceRunes_nonempty.
  - eapply stripRune_prefix_None; [|apply trimRight_prefix].
    apply trimLeft_done, spaceRunes_nonempty.
Qed.

(** ** Binding extraction *)

(** C3: a method without the annotation, or whose annotation has no pattern,
    is unbound; a populated verb variant with a non-empty path gives that
    lower-case verb with the path as it is; a populated verb variant with an
    empty path leaves the method unbound. *)
Theorem extractHttpRule_binding (method : Method.t) :
  (Method.Options method = None → extractHttpRule method = None) ∧
  (∀ options, Method.Options method = Some options →
     (MethodOptions.Http options = None → extractHttpRule method = None) ∧
     (∀ rule, MethodOptions.Http options = Some rule →
        (annotations.Pattern rule = None → extractHttpRule method = None) ∧
        (∀ variant verb path,
           (variant, verb) ∈
             [ (HttpRule_Post, "post"); (HttpRule_Get, "get");
               (HttpRule_Put, "put"); (HttpRule_Delete, "delete");
               (HttpRule_Patch, "patch") ] →
           annotations.Pattern rule = Some (variant path) →
           (path ≠ "" →
              extractHttpRule method = Some (HttpRule.mk verb path)) ∧
           (path = "" → extractHttpRule method = None)))).
Proof.
  unfold extractHttpRule. split; [by intros ->|].
  intros options ->. split; [by intros ->|].
  intros rule ->. split; [by intros ->|].
  intros variant verb path Hin ->.
  repeat (apply elem_of_cons in Hin as [[= -> ->]|Hin];
          [destruct path; simpl; split; (done || (intros _; case_decide; [done|lia]))|]).
  by apply elem_of_nil in Hin.
Qed.

Lemma extractHttpRule_binding_witness :
  extractHttpRule getUser
    = Some (HttpRule.mk "post" "/api/UserService/GetUser").
Proof.
  destruct (extractHttpRule_binding getUser) as [_ H].
  destruct (H _ eq_refl) as [_ H1].
  destruct (H1 _ eq_refl) as [_ H2].
  apply (H2 HttpRule_Post "post" "/api/UserService/GetUser");
    [left|reflexivity|discriminate].
Defined.

(** ** Services without bound methods *)

Lemma methodInfos_step_unbound acc method :
  extractHttpRule method = None → methodInfos_step acc method = acc.
Proof. unfold methodInfos_step. intros ->. by destruct acc. Qed.

Lemma methodInfos_unbound service :
  (∀ m, m ∈ Service.Methods service → extractHttpRule m = None) →
  methodInfos service = Some [].
Proof.
  unfold methodInfos. generalize (Some (@nil MethodInfo.t)).
  induction (Service.Methods service) as [|m ms IH]; intros acc H; [done|].
  simpl. rewrite methodInfos_step_unbound by (apply H; left).
  apply IH. intros m' Hm'. apply H. by right.
Qed.

(** C9: when no method of the service has a usable binding, nothing is
    written, whatever the targets of the two flavors are, and the call returns
    nil. *)
Theorem generateFrontendApi_unbound service config fs :
  (∀ m, m ∈ Service.Methods service → extractHttpRule m = None) →
  generateFrontendApi service config fs = (Return None, fs).
Proof.
  intros H. unfold generateFrontendApi.
  by rewrite (methodInfos_unbound _ H).
Qed.

Lemma generateFrontendApi_unbound_witness :
  generateFrontendApi pingService
    (parsePluginOptions
       "output_paths=src/api,output_paths_js=src/js").1 projectFS
  = (Return None, projectFS).
Proof.
  apply generateFrontendApi_unbound.
  intros m Hm. cbn in Hm.
  apply elem_of_cons in Hm as [->|Hm]; [reflexivity|].
  apply list_elem_of_singleton in Hm as ->. reflexivity.
Defined.

(** ** The two scenarios of [UserService] *)

(** C1: with the untyped targets alone the generator writes nothing: the
    test on the typed target list returns before the loop over the untyped
    targets is reached, although the target directory exists and the method
    is bound. *)
Theorem generateFrontendApi_untyped_only :
  let config := (parsePluginOptions untypedOptions).1 in
  methodInfos userService = Some [getUserInfo] ∧
  PluginConfig.OutputPaths config = [] ∧
  PluginConfig.OutputPathsJS config = [OutputPathConfig.mk "src/js" ""] ∧
  os_Stat "src/js" projectFS = inl Dir ∧
  generateFrontendApi userService config projectFS
    = (Return None, projectFS) ∧
  projectFS !! ["src"; "js"; "userApi.js"] = None.
Proof. vm_compute. by repeat split. Qed.

(** With a typed target next to it, the same untyped target is rendered. *)
Lemma generateFrontendApi_both_flavors :
  let config :=
    (parsePluginOptions (untypedOptions +:+ ",output_paths=src/api")).1 in
  (generateFrontendApi userService config projectFS).2
    !! ["src"; "js"; "userApi.js"] = Some (File userApi_js).
Proof. by vm_compute. Qed.

(** The entry of a method in the typed output is not written on one line. *)
Lemma typed_entry_not_on_one_line :
  Contains (generateTypeScriptCode userServiceInfo) getUserEntry_one_line
    = false.
Proof. by vm_compute. Qed.

(** C2: the typed output of the scenario, byte for byte: the entry of
    [GetUser] breaks after the arrow and continues, indented by four spaces,
    on the next line. *)
Theorem generateTypeScriptCode_userService :
  let config := (parsePluginOptions typedOptions).1 in
  methodInfos userService = Some [getUserInfo] ∧
  generateTypeScriptCode userServiceInfo = userApi_ts ∧
  generateFrontendApi userService config projectFS
    = (Return None,
       <[ ["src"; "api"; "userApi.ts"] := File userApi_ts ]> projectFS).
Proof. vm_compute. by repeat split. Qed.

(** ** The list grammar of the targets *)

Lemma Split_Join pairs sep :
  pairs ≠ [] → Forall (λ p, sep ∉ bytes p) pairs →
  Split (Join pairs (String sep "")) sep = pairs.
Proof.
  induction pairs as [|x [|y rest] IH]; intros Hne Hall; [done|..].
  - simpl. apply Split_absent. by inversion Hall.
  - change (Join (x :: y :: rest) (String sep ""))
      with (x +:+ String sep (Join (y :: rest) (String sep ""))).
    rewrite Split_app. inversion Hall; subst.
    rewrite Split_absent by done. by rewrite IH.
Qed.

Lemma Join_snoc pairs pair sep :
  pairs ≠ [] →
  Join (pairs ++ [pair]) sep = Join pairs sep +:+ sep +:+ pair.
Proof.
  induction pairs as [|x [|y rest] IH]; intros Hne; [done|done|].
  change (Join ((x :: y :: rest) ++ [pair]) sep)
    with (x +:+ sep +:+ Join ((y :: rest) ++ [pair]) sep).
  rewrite IH by done.
  change (Join (x :: y :: rest) sep) with (x +:+ sep +:+ Join (y :: rest) sep).
  by rewrite !append_assoc.
Qed.

Lemma SplitN_2_cut s sep :
  SplitN s sep 2 =
    match Cut s sep with Some (p, q) => [p; q] | None => [s] end.
Proof. simpl. by destruct (Cut s sep) as [[??]|]. Qed.

Lemma parseOutputPaths_step_acc paths pathStr :
  parseOutputPaths_step paths pathStr
    = paths ++ parseOutputPaths_step [] pathStr.
Proof.
  unfold parseOutputPaths_step. case_decide; [by rewrite app_nil_r|].
  by destruct (SplitN _ _ _) as [|? [|? [|? ?]]].
Qed.

Lemma parseOutputPaths_fold paths entries :
  foldl parseOutputPaths_step paths entries
    = paths ++ foldl parseOutputPaths_step [] entries.
Proof.
  revert paths. induction entries as [|e es IH]; intros paths; simpl.
  - by rewrite app_nil_r.
  - rewrite IH, (IH (parseOutputPaths_step [] e)).
    by rewrite parseOutputPaths_step_acc, (assoc_L (++)).
Qed.

Lemma parseOutputPaths_app a b :
  parseOutputPaths (a +:+ ";" +:+ b)
    = parseOutputPaths a ++ parseOutputPaths b.
Proof.
  unfold parseOutputPaths.
  change (a +:+ ";" +:+ b) with (a +:+ String ";" b).
  by rewrite Split_app, foldl_app, parseOutputPaths_fold.
Qed.

Lemma parseOutputPaths_entry e :
  ";"%char ∉ bytes e →
  parseOutputPaths e = parseOutputPaths_step [] e.
Proof. intros H. unfold parseOutputPaths. by rewrite Split_absent. Qed.

(** C5: the example of the specification, and the grammar in general:
    the value is cut at every [;], an entry that is blank after trimming is
    dropped, an entry with a [:] gives the trimmed text before the first [:]
    as path and the trimmed rest as override, and any other entry gives its
    trimmed text as path with no override. *)
Theorem parseOutputPaths_grammar :
  parseOutputPaths "a;b:@/x;c"
    = [ OutputPathConfig.mk "a" ""; OutputPathConfig.mk "b" "@/x";
        OutputPathConfig.mk "c" "" ] ∧
  (∀ a b,
     parseOutputPaths (a +:+ ";" +:+ b)
       = parseOutputPaths a ++ parseOutputPaths b) ∧
  (∀ e, ";"%char ∉ bytes e → TrimSpace e = "" → parseOutputPaths e = []) ∧
  (∀ e p o,
     ";"%char ∉ bytes e → TrimSpace e ≠ "" →
     TrimSpace e = p +:+ ":" +:+ o → ":"%char ∉ bytes p →
     parseOutputPaths e = [OutputPathConfig.mk (TrimSpace p) (TrimSpace o)]) ∧
  (∀ e,
     ";"%char ∉ bytes e → TrimSpace e ≠ "" →
     ":"%char ∉ bytes (TrimSpace e) →
     parseOutputPaths e = [OutputPathConfig.mk (TrimSpace e) ""]).
Proof.
  split; [by vm_compute|]. split; [apply parseOutputPaths_app|].
  split; [|split].
  - intros e He Hblank. rewrite parseOutputPaths_entry by done.
    unfold parseOutputPaths_step. by rewrite decide_True.
  - intros e p o He Hne Heq Hp. rewrite parseOutputPaths_entry by done.
    unfold parseOutputPaths_step. rewrite decide_False by done.
    rewrite SplitN_2_cut, Heq.
    change (p +:+ ":" +:+ o) with (p +:+ String ":" o).
    by rewrite Cut_first.
  - intros e He Hne Hc. rewrite parseOutputPaths_entry by done.
    unfold parseOutputPaths_step. rewrite decide_False by done.
    by rewrite SplitN_2_cut, Cut_absent.
Qed.

Lemma parseOutputPaths_grammar_witness :
  parseOutputPaths "  " = [] ∧
  parseOutputPaths " b : @/x:y " = [OutputPathConfig.mk "b" "@/x:y"] ∧
  parseOutputPaths " src/api " = [OutputPathConfig.mk "src/api" ""].
Proof.
  destruct parseOutputPaths_grammar as (_ & _ & H1 & H2 & H3).
  split; [|split].
  - apply H1; [by_compute|reflexivity].
  - apply (H2 " b : @/x:y " "b " " @/x:y");
      [by_compute|discriminate|reflexivity
      |by_compute].
  - apply (H3 " src/api ");
      [by_compute|discriminate
      |by_compute].
Defined.

(** ** The option parser *)

Lemma parsePluginOptions_fold param :
  (parsePluginOptions param).1
    = foldl parsePluginOptions_step defaultConfig (Split param ",").
Proof.
  unfold parsePluginOptions. case_decide as He; [|done]. by subst.
Qed.

Lemma parsePluginOptions_pairs pairs :
  Forall (λ p, ","%char ∉ bytes p) pairs →
  (parsePluginOptions (Join pairs ",")).1
    = foldl parsePluginOptions_step defaultConfig pairs.
Proof.
  intros Hall. destruct (decide (pairs = [])) as [->|Hne]; [done|].
  rewrite parsePluginOptions_fold.
  by rewrite (Split_Join pairs ","%char).
Qed.

Lemma parsePluginOptions_snoc pairs pair :
  Forall (λ p, ","%char ∉ bytes p) (pairs ++ [pair]) →
  (parsePluginOptions (Join (pairs ++ [pair]) ",")).1
    = parsePluginOptions_step (parsePluginOptions (Join pairs ",")).1 pair.
Proof.
  intros Hall. rewrite parsePluginOptions_pairs by done.
  rewrite foldl_app. simpl.
  rewrite parsePluginOptions_pairs; [done|].
  by apply Forall_app in Hall as [? _].
Qed.

Lemma parsePluginOptions_step_no_eq config pair :
  "="%char ∉ bytes pair → parsePluginOptions_step config pair = config.
Proof.
  intros H. unfold parsePluginOptions_step.
  by rewrite SplitN_2_cut, Cut_absent.
Qed.

Lemma parsePluginOptions_step_pair config k v :
  "="%char ∉ bytes k →
  parsePluginOptions_step config (k +:+ "=" +:+ v) =
    let key := TrimSpace k in
    let value := TrimSpace v in
    let '(PluginConfig.mk si sijs tip ops opsjs) := config in
    if decide (key = "service_import") then
      PluginConfig.mk value sijs tip ops opsjs
    else if decide (key = "service_import_js") then
      PluginConfig.mk si value tip ops opsjs
    else if decide (key = "types_import_path") then
      PluginConfig.mk si sijs value ops opsjs
    else if decide (key = "output_paths") then
      PluginConfig.mk si sijs tip (parseOutputPaths value) opsjs
    else if decide (key = "output_paths_js") then
      PluginConfig.mk si sijs tip ops (parseOutputPaths value)
    else config.
Proof.
  intros H. unfold parsePluginOptions_step.
  change (k +:+ "=" +:+ v) with (k +:+ String "=" v).
  by rewrite SplitN_2_cut, Cut_first.
Qed.

(** C7: the parser returns no error on any input; the empty string gives the
    defaults; and when a pair is put after the pairs already given, a pair
    without [=] and a pair with an unknown key change nothing, while a pair
    with a known key replaces the value of that key and of no other. *)
Theorem parsePluginOptions_total :
  (∀ param, (parsePluginOptions param).2 = None) ∧
  parsePluginOptions ""
    = (PluginConfig.mk "./api" "" "@/api/proto-types" [] [], None) ∧
  (∀ pairs pair,
     Forall (λ p, ","%char ∉ bytes p) (pairs ++ [pair]) →
     let before := (parsePluginOptions (Join pairs ",")).1 in
     let after := (parsePluginOptions (Join (pairs ++ [pair]) ",")).1 in
     ("="%char ∉ bytes pair → after = before) ∧
     (∀ k v,
        pair = k +:+ "=" +:+ v → "="%char ∉ bytes k →
        (TrimSpace k ∉
           [ "service_import"; "service_import_js"; "types_import_path";
             "output_paths"; "output_paths_js" ] → after = before) ∧
        (TrimSpace k = "service_import" →
           after = PluginConfig.mk (TrimSpace v)
                     (PluginConfig.ServiceImportJS before)
                     (PluginConfig.TypesImportPath before)
                     (PluginConfig.OutputPaths before)
                     (PluginConfig.OutputPathsJS before)) ∧
        (TrimSpace k = "service_import_js" →
           after = PluginConfig.mk (PluginConfig.ServiceImport before)
                     (TrimSpace v)
                     (PluginConfig.TypesImportPath before)
                     (PluginConfig.OutputPaths before)
                     (PluginConfig.OutputPathsJS before)) ∧
        (TrimSpace k = "types_import_path" →
           after = PluginConfig.mk (PluginConfig.ServiceImport before)
                     (PluginConfig.ServiceImportJS before)
                     (TrimSpace v)
                     (PluginConfig.OutputPaths before)
                     (PluginConfig.OutputPathsJS before)) ∧
        (TrimSpace k = "output_paths" →
           after = PluginConfig.mk (PluginConfig.ServiceImport before)
                     (PluginConfig.ServiceImportJS before)
                     (PluginConfig.TypesImportPath before)
                     (parseOutputPaths (TrimSpace v))
                     (PluginConfig.OutputPathsJS before)) ∧
        (TrimSpace k = "output_paths_js" →
           after = PluginConfig.mk (PluginConfig.ServiceImport before)
                     (PluginConfig.ServiceImportJS before)
                     (PluginConfig.TypesImportPath before)
                     (PluginConfig.OutputPaths before)
                     (parseOutputPaths (TrimSpace v))))).
Proof.
  split; [|split; [done|]].
  { intros param. unfold parsePluginOptions. by case_decide. }
  intros pairs pair Hall before after. subst after.
  rewrite parsePluginOptions_snoc by done. fold before.
  split; [apply parsePluginOptions_step_no_eq|].
  intros k v -> Hk. rewrite parsePluginOptions_step_pair by done.
  destruct before as [si sijs tip ops opsjs]. simpl.
  split.
  { intros Hn. rewrite !not_elem_of_cons in Hn.
    destruct Hn as (? & ? & ? & ? & ? & _).
    by rewrite !decide_False by done. }
  repeat split; intros ->; by rewrite ?decide_True by done.
Qed.

Lemma parsePluginOptions_total_witness :
  (parsePluginOptions
     "service_import=./a,junk,later=1, service_import = ./b ").1
  = PluginConfig.mk "./b" "" "@/api/proto-types" [] [].
Proof.
  destruct parsePluginOptions_total as (_ & _ & H).
  destruct (H ["service_import=./a"; "junk"; "later=1"]
              " service_import = ./b ") as [_ Hk].
  { by_compute. }
  destruct (Hk " service_import " " ./b ") as (_ & Hset & _).
  { reflexivity. }
  { by_compute. }
  etrans; [apply Hset; reflexivity|]. by vm_compute.
Defined.

(** ** The paths of the targets *)

Lemma ofBytes_nil l : ofBytes l = "" → l = [].
Proof. intros H. by rewrite <- (bytes_ofBytes l), H. Qed.

Lemma bytes_nil s : bytes s = [] → s = "".
Proof. intros H. by rewrite <- (ofBytes_bytes s), H. Qed.

Lemma TrimSpace_no_leading s :
  stripRune spaceRunes (bytes (TrimSpace s)) = None.
Proof.
  unfold TrimSpace. rewrite bytes_ofBytes.
  eapply stripRune_prefix_None; [|apply trimRight_prefix].
  apply trimLeft_done, spaceRunes_nonempty.
Qed.

(** A list that the trimming consumes entirely ends with one of the runes. *)
Lemma trimRunes_nil_ends runes fuel l :
  trimRunes runes fuel l = [] → l ≠ [] →
  ∃ k r, r ∈ runes ∧ l = k ++ r.
Proof.
  revert l. induction fuel as [|fuel IH]; intros l; simpl; [done|].
  destruct (stripRune runes l) as [l1|] eqn:Hs; [|done].
  apply stripRune_Some in Hs as (p & Hin & ->).
  intros Hnil _. destruct (decide (l1 = [])) as [->|Hne].
  - exists [], p. by rewrite app_nil_r.
  - destruct (IH _ Hnil Hne) as (k & r & Hr & ->).
    exists (p ++ k), r. by rewrite (assoc_L (++)).
Qed.

Lemma TrimSpace_blank_prefix p s :
  TrimSpace p = "" → bytes p `prefix_of` bytes (TrimSpace s) → p = "".
Proof.
  intros Hblank Hpre. apply bytes_nil.
  destruct (decide (bytes p = [])) as [|Hne]; [done|exfalso].
  pose proof (stripRune_prefix_None _ _ _ (TrimSpace_no_leading s) Hpre)
    as Hnone.
  apply ofBytes_nil in Hblank.
  rewrite (trimLeft_fixed _ _ Hnone) in Hblank.
  unfold trimRight in Hblank.
  apply (f_equal reverse) in Hblank.
  rewrite reverse_involutive, reverse_nil in Hblank.
  apply trimRunes_nil_ends in Hblank as (k & r & Hr & Hk).
  - apply list_elem_of_fmap in Hr as (r0 & -> & Hr0).
    apply (f_equal reverse) in Hk.
    rewrite reverse_involutive, reverse_app, reverse_involutive in Hk.
    by eapply stripRune_None.
  - intros Hrev. apply Hne.
    by rewrite <- (reverse_involutive (bytes p)), Hrev.
Qed.

Lemma parseOutputPaths_elem value t :
  t ∈ parseOutputPaths value →
  ∃ entry, entry ∈ Split value ";" ∧ parseOutputPaths_step [] entry = [t].
Proof.
  unfold parseOutputPaths.
  induction (Split value ";") as [|e es IH] using rev_ind;
    [by intros ?%elem_of_nil|].
  rewrite foldl_app. simpl. rewrite parseOutputPaths_step_acc.
  intros [Hin|Hin]%elem_of_app.
  - destruct (IH Hin) as (entry & ? & ?). exists entry.
    split; [|done]. apply elem_of_app. by left.
  - exists e. split; [apply elem_of_app; right; left|].
    revert Hin. unfold parseOutputPaths_step. case_decide.
    + by intros ?%elem_of_nil.
    + destruct (SplitN _ _ _) as [|? [|? [|? ?]]]; simpl;
        by intros ->%list_elem_of_singleton.
Qed.

Lemma Split_no_sep s sep entry :
  entry ∈ Split s sep → sep ∉ bytes entry.
Proof.
  revert entry. induction s as [|a s IH]; intros entry; simpl.
  - intros ->%list_elem_of_singleton. cbn. apply not_elem_of_nil.
  - pose proof (Split_nonempty s sep) as Hne.
    destruct (Split s sep) as [|h tl] eqn:Hs; [done|]. simpl.
    case_decide as Ha.
    + intros [->|Hin]%elem_of_cons; [cbn; apply not_elem_of_nil|by apply IH].
    + intros [->|Hin]%elem_of_cons.
      * cbn. apply not_elem_of_cons. split; [done|]. apply IH. left.
      * apply IH. by right.
Qed.

Lemma parsePluginOptions_step_targets config pair t :
  (∀ t, t ∈ PluginConfig.OutputPaths config
          ++ PluginConfig.OutputPathsJS config →
        ∃ value, t ∈ parseOutputPaths value) →
  t ∈ PluginConfig.OutputPaths (parsePluginOptions_step config pair)
        ++ PluginConfig.OutputPathsJS (parsePluginOptions_step config pair) →
  ∃ value, t ∈ parseOutputPaths value.
Proof.
  intros Hinv. unfold parsePluginOptions_step.
  destruct (SplitN pair "=" 2) as [|k [|v [|? ?]]]; try apply Hinv.
  destruct config as [si sijs tip ops opsjs]. simpl in *.
  repeat case_decide; simpl; try apply Hinv;
    intros [Hin|Hin]%elem_of_app; eauto;
    apply Hinv, elem_of_app; auto.
Qed.

Lemma parsePluginOptions_targets param t :
  t ∈ PluginConfig.OutputPaths (parsePluginOptions param).1
        ++ PluginConfig.OutputPathsJS (parsePluginOptions param).1 →
  ∃ value, t ∈ parseOutputPaths value.
Proof.
  rewrite parsePluginOptions_fold. revert t.
  induction (Split param ",") as [|pair pairs IH] using rev_ind;
    [by intros t ?%elem_of_nil|].
  intros t. rewrite foldl_app. simpl.
  by apply parsePluginOptions_step_targets.
Qed.

(** An entry that starts with [:] gives a target whose path is empty. *)
Lemma parsePluginOptions_empty_path :
  let config := (parsePluginOptions "output_paths=:x").1 in
  ∃ t, t ∈ PluginConfig.OutputPaths config ++ PluginConfig.OutputPathsJS config
       ∧ TrimSpace (OutputPathConfig.Path t) = "".
Proof. exists (OutputPathConfig.mk "" "x"). split; [by_compute|done]. Qed.

(** C6: every target of the configuration comes from an entry of a target
    list that is not blank; its path is trimmed, and it is empty exactly when
    the trimmed entry starts with [:]. *)
Theorem parseOutputPaths_path :
  (∀ param t,
     t ∈ PluginConfig.OutputPaths (parsePluginOptions param).1
           ++ PluginConfig.OutputPathsJS (parsePluginOptions param).1 →
     ∃ value, t ∈ parseOutputPaths value) ∧
  (∀ value t,
     t ∈ parseOutputPaths value →
     TrimSpace (OutputPathConfig.Path t) = OutputPathConfig.Path t ∧
     ∃ entry,
       entry ∈ Split value ";" ∧ parseOutputPaths entry = [t] ∧
       TrimSpace entry ≠ "" ∧
       (OutputPathConfig.Path t = "" ↔ ∃ o, TrimSpace entry = ":" +:+ o)).
Proof.
  split; [apply parsePluginOptions_targets|].
  intros value t (entry & Hin & Hstep)%parseOutputPaths_elem.
  pose proof (Split_no_sep _ _ _ Hin) as Hsep.
  rewrite <- parseOutputPaths_entry in Hstep by done.
  assert (TrimSpace entry ≠ "" ∧
          TrimSpace (OutputPathConfig.Path t) = OutputPathConfig.Path t ∧
          (OutputPathConfig.Path t = "" ↔ ∃ o, TrimSpace entry = ":" +:+ o))
    as (Hne & Htrim & Hiff); [|by eauto 10].
  rewrite parseOutputPaths_entry in Hstep by done.
  revert Hstep. unfold parseOutputPaths_step.
  case_decide as Hne; [done|]. rewrite SplitN_2_cut.
  destruct (Cut (TrimSpace entry) ":") as [[p o]|] eqn:Hcut.
  - intros [= <-]. simpl. split; [done|]. split; [apply TrimSpace_idemp|].
    apply Cut_Some in Hcut as [Heq Hp]. split.
    + intros Hblank. exists o. rewrite Heq.
      rewrite (TrimSpace_blank_prefix p entry Hblank); [done|].
      rewrite Heq, bytes_app. by apply prefix_app_r.
    + intros [o' Ho']. rewrite Ho' in Heq. destruct p as [|a p]; [done|].
      exfalso. apply Hp. injection Heq as <- _. cbn. left.
  - intros [= <-]. simpl. split; [done|]. split; [apply TrimSpace_idemp|].
    split; [done|]. intros [o' Ho']. rewrite Ho' in Hcut.
    by vm_compute in Hcut.
Qed.

Lemma parseOutputPaths_path_witness :
  TrimSpace "" = "" ∧
  ∃ entry,
    entry ∈ Split "src/api;:x" ";" ∧
    parseOutputPaths entry = [OutputPathConfig.mk "" "x"] ∧
    TrimSpace entry ≠ "" ∧
    ("" = "" ↔ ∃ o, TrimSpace entry = ":" +:+ o).
Proof.
  destruct parseOutputPaths_path as [_ H].
  apply (H "src/api;:x" (OutputPathConfig.mk "" "x")). by_compute.
Defined.

(** ** Sorting and the order of a [range] over a map *)

Lemma sortStrings_sorted l : StronglySorted String.le (sortStrings l).
Proof. apply (StronglySorted_merge_sort _). Qed.

Lemma sortStrings_perm l : sortStrings l ≡ₚ l.
Proof. apply merge_sort_Permutation. Qed.

Lemma sortStrings_order l l' : l ≡ₚ l' → sortStrings l = sortStrings l'.
Proof.
  intros Hp. apply (StronglySorted_unique String.le);
    [apply sortStrings_sorted..|].
  by rewrite !sortStrings_perm.
Qed.

Lemma uniqueAndSort_elem strs x : x ∈ uniqueAndSort strs ↔ x ∈ strs.
Proof.
  unfold uniqueAndSort, uniqueAndSort_in.
  by rewrite sortStrings_perm, elem_of_elements, elem_of_list_to_set.
Qed.

Lemma uniqueAndSort_NoDup strs : NoDup (uniqueAndSort strs).
Proof.
  unfold uniqueAndSort, uniqueAndSort_in.
  rewrite sortStrings_perm. apply NoDup_elements.
Qed.

Lemma uniqueAndSort_sorted strs : StronglySorted String.le (uniqueAndSort strs).
Proof. apply sortStrings_sorted. Qed.

Lemma uniqueAndSort_ext strs strs' :
  (∀ x, x ∈ strs ↔ x ∈ strs') → uniqueAndSort strs = uniqueAndSort strs'.
Proof.
  intros H. unfold uniqueAndSort.
  assert ((list_to_set strs : gset string) = list_to_set strs') as ->;
    [|done].
  apply set_eq. intros x. by rewrite !elem_of_list_to_set.
Qed.

(** Whatever the order in which the [range] over [typeSet] yields the keys,
    [uniqueAndSort] returns the same slice. *)
Lemma uniqueAndSort_any_order strs keys :
  keys ≡ₚ elements (list_to_set strs : gset string) →
  uniqueAndSort_in keys = uniqueAndSort strs.
Proof. apply sortStrings_order. Qed.

(** ** The import groups *)

Lemma namesFor_snoc p entries e :
  namesFor p (entries ++ [e]) =
    namesFor p entries
      ++ (if decide (protoFileToImportPath e.2 = p) then [e.1] else []).
Proof.
  unfold namesFor. rewrite filter_app, fmap_app. f_equal.
  rewrite filter_cons, filter_nil. by case_decide.
Qed.

Lemma namesFor_perm p entries entries' :
  entries ≡ₚ entries' → namesFor p entries ≡ₚ namesFor p entries'.
Proof. intros H. unfold namesFor. by rewrite H. Qed.

Lemma importMap_of_snoc entries e :
  importMap_of (entries ++ [e]) = importMap_step (importMap_of entries) e.
Proof. unfold importMap_of. by rewrite foldl_app. Qed.

Lemma importMap_of_lookup entries p :
  importMap_of entries !! p =
    if decide (p ≠ "" ∧ namesFor p entries ≠ [])
    then Some (namesFor p entries) else None.
Proof.
  induction entries as [|e entries IH] using rev_ind.
  - unfold importMap_of, namesFor. simpl. rewrite lookup_empty.
    case_decide as H; [by destruct H|done].
  - rewrite importMap_of_snoc, namesFor_snoc. unfold importMap_step.
    set (q := protoFileToImportPath e.2) in *.
    destruct (decide (q ≠ "")) as [Hq|Hq].
    + destruct (decide (q = p)) as [->|Hqp].
      * rewrite lookup_insert_eq. rewrite lookup_total_alt, IH.
        rewrite (decide_True (P := p ≠ "" ∧ namesFor p entries ++ [e.1] ≠ []));
          [|split; [done|by destruct (namesFor p entries)]].
        f_equal. f_equal. case_decide as Hc; [done|].
        apply not_and_l in Hc as [Hc|Hc]; [done|].
        by apply dec_stable in Hc as ->.
      * rewrite lookup_insert_ne by done. rewrite IH, app_nil_r. done.
    + apply dec_stable in Hq. rewrite IH.
      destruct (decide (q = p)) as [<-|Hqp]; [|by rewrite app_nil_r].
      rewrite !decide_False; [done|by intros [? _]..].
Qed.

Lemma collectTypeImports_in_lookup entries p :
  collectTypeImports_in entries !! p =
    if decide (p ≠ "" ∧ namesFor p entries ≠ [])
    then Some (uniqueAndSort (namesFor p entries)) else None.
Proof.
  unfold collectTypeImports_in. rewrite lookup_fmap, importMap_of_lookup.
  by case_decide.
Qed.

(** The groups do not depend on the order in which the [range] over
    [typeFileMap] yields its entries. *)
Lemma collectTypeImports_in_order entries entries' :
  entries ≡ₚ entries' →
  collectTypeImports_in entries = collectTypeImports_in entries'.
Proof.
  intros Hp. apply map_eq. intros p. rewrite !collectTypeImports_in_lookup.
  pose proof (namesFor_perm p _ _ Hp) as Hn.
  destruct (decide (p ≠ "" ∧ namesFor p entries ≠ [])) as [[? Hne]|Hc].
  - rewrite decide_True.
    + f_equal. apply uniqueAndSort_ext. intros x. by rewrite Hn.
    + split; [done|]. intros Hnil. rewrite Hnil in Hn.
      by apply Permutation_nil_r in Hn.
  - rewrite decide_False; [done|]. intros [? Hne]. apply Hc. split; [done|].
    intros Hnil. rewrite Hnil in Hn. symmetry in Hn.
    by apply Permutation_nil_r in Hn.
Qed.

Lemma methodMap_lookup methods name :
  methodMap methods !! name =
    if decide (name ∈ MethodInfo.MethodName <$> methods)
    then Some true else None.
Proof.
  unfold methodMap.
  induction methods as [|m methods IH] using rev_ind.
  - done.
  - rewrite foldl_app, fmap_app. simpl.
    destruct (decide (MethodInfo.MethodName m = name)) as [<-|Hne].
    + rewrite lookup_insert_eq. rewrite decide_True; [done|].
      apply elem_of_app. right. left.
    + rewrite lookup_insert_ne by done. rewrite IH.
      destruct (decide (name ∈ MethodInfo.MethodName <$> methods)) as [Hin|Hin].
      * rewrite decide_True; [done|]. apply elem_of_app. by left.
      * rewrite decide_False; [done|].
        intros [?|?%list_elem_of_singleton]%elem_of_app; by subst.
Qed.

Lemma methodMap_perm methods methods' :
  methods ≡ₚ methods' → methodMap methods = methodMap methods'.
Proof.
  intros Hp. apply map_eq. intros name. rewrite !methodMap_lookup.
  assert (name ∈ MethodInfo.MethodName <$> methods
          ↔ name ∈ MethodInfo.MethodName <$> methods') as Hiff
    by by rewrite Hp.
  destruct (decide (name ∈ MethodInfo.MethodName <$> methods)).
  - by rewrite decide_True by by apply Hiff.
  - by rewrite decide_False by by rewrite <- Hiff.
Qed.

Lemma collectTypeImports_lookup service methods p names :
  collectTypeImports service methods !! p = Some names →
  p ≠ "" ∧
  names = uniqueAndSort
            (namesFor p (map_to_list (typeFileMap service methods))).
Proof.
  unfold collectTypeImports. rewrite collectTypeImports_in_lookup.
  case_decide as Hc; [|done]. intros [= <-]. by destruct Hc.
Qed.

(** The text of one import statement depends on the groups and on the root
    of the type imports only. *)
Lemma writeTypeImport_ext data data' buf importPath :
  ServiceInfo.TypeImports data = ServiceInfo.TypeImports data' →
  ServiceInfo.TypesImportPath data = ServiceInfo.TypesImportPath data' →
  writeTypeImport data buf importPath = writeTypeImport data' buf importPath.
Proof. unfold writeTypeImport. by intros -> ->. Qed.

Lemma writeTypeImports_in_ext data data' keys buf :
  ServiceInfo.TypeImports data = ServiceInfo.TypeImports data' →
  ServiceInfo.TypesImportPath data = ServiceInfo.TypesImportPath data' →
  writeTypeImports_in keys data buf = writeTypeImports_in keys data' buf.
Proof.
  intros Hi Hp. unfold writeTypeImports_in. rewrite Hi.
  case_decide; [|done]. generalize (sortStrings keys). intros l. revert buf.
  induction l as [|x l IH]; intros buf; simpl; [done|].
  by rewrite IH, (writeTypeImport_ext data data').
Qed.

Lemma writeTypeImports_in_sorted keys data buf :
  keys ≡ₚ (map_to_list (ServiceInfo.TypeImports data)).*1 →
  writeTypeImports_in keys data buf
    = foldl (writeTypeImport data) buf
        (sortStrings (map_to_list (ServiceInfo.TypeImports data)).*1).
Proof.
  intros Hp. unfold writeTypeImports_in.
  rewrite (sortStrings_order _ _ Hp). case_decide as Hs; [done|].
  assert (ServiceInfo.TypeImports data = ∅) as ->.
  { apply map_size_empty_iff. lia. }
  by rewrite map_to_list_empty.
Qed.

(** *** The scan keeps, for every simple name, the file recorded last *)

Lemma recordType_recorded msg m :
  recordType msg m = foldl recordEntry m (recordedOf msg).
Proof.
  unfold recordType, recordedOf. destruct msg as [msg|]; [|done].
  by destruct (Message.ParentFile msg).
Qed.

Lemma typeFileMap_recorded service methods :
  typeFileMap service methods
    = foldl recordEntry ∅ (recordedTypes service methods).
Proof.
  unfold typeFileMap, recordedTypes.
  generalize (∅ : gmap string string).
  induction (Service.Methods service) as [|method ms IH]; intros m; [done|].
  simpl. rewrite foldl_app, IH. f_equal.
  unfold typeFileMap_step.
  destruct (default false (methodMap methods !! Method.Name method));
    [|done].
  by rewrite foldl_app, !recordType_recorded.
Qed.

Lemma foldl_insert_absent (l : list (string * string)) m n :
  n ∉ l.*1 → foldl recordEntry m l !! n = m !! n.
Proof.
  revert m. induction l as [|[k v] l IH]; intros m; simpl; [done|].
  intros [Hne Hn]%not_elem_of_cons. rewrite IH by done.
  unfold recordEntry. simpl. by rewrite lookup_insert_ne.
Qed.

Lemma foldl_insert_last (before after : list (string * string)) m n f :
  n ∉ after.*1 →
  foldl recordEntry m (before ++ (n, f) :: after) !! n
    = Some f.
Proof.
  intros Hn. rewrite foldl_app. simpl.
  rewrite foldl_insert_absent by done. apply lookup_insert_eq.
Qed.

Lemma foldl_insert_Some (l : list (string * string)) n f :
  foldl recordEntry ∅ l !! n = Some f →
  ∃ before after, l = before ++ (n, f) :: after ∧ n ∉ after.*1.
Proof.
  induction l as [|[k v] l IH] using rev_ind; [done|].
  rewrite foldl_app. simpl. unfold recordEntry at 1. simpl.
  destruct (decide (k = n)) as [->|Hne].
  - rewrite lookup_insert_eq. intros [= ->].
    exists l, []. split; [done|]. apply not_elem_of_nil.
  - rewrite lookup_insert_ne by done.
    intros (before & after & -> & Hn)%IH.
    exists before, (after ++ [(k, v)]). split.
    + by rewrite <- (assoc_L (++)).
    + rewrite fmap_app. simpl.
      intros [?|?%list_elem_of_singleton]%elem_of_app; by subst.
Qed.

Lemma namesFor_elem p entries n :
  n ∈ namesFor p entries
  ↔ ∃ f, (n, f) ∈ entries ∧ protoFileToImportPath f = p.
Proof.
  unfold namesFor. rewrite list_elem_of_fmap. split.
  - intros ([n' f] & -> & [Hp Hin]%list_elem_of_filter). by exists f.
  - intros (f & Hin & Hp). exists (n, f). split; [done|].
    by apply list_elem_of_filter.
Qed.

Lemma collectTypeImports_elem service methods p names n :
  collectTypeImports service methods !! p = Some names →
  n ∈ names →
  ∃ f, typeFileMap service methods !! n = Some f
       ∧ protoFileToImportPath f = p.
Proof.
  intros [_ ->]%collectTypeImports_lookup.
  rewrite uniqueAndSort_elem, namesFor_elem.
  intros (f & Hin%elem_of_map_to_list & Hp). eauto.
Qed.

Lemma collectTypeImports_intro service methods n f :
  typeFileMap service methods !! n = Some f →
  protoFileToImportPath f ≠ "" →
  ∃ names,
    collectTypeImports service methods !! protoFileToImportPath f = Some names
    ∧ n ∈ names.
Proof.
  intros Hn Hp. unfold collectTypeImports.
  rewrite collectTypeImports_in_lookup.
  assert (n ∈ namesFor (protoFileToImportPath f)
                (map_to_list (typeFileMap service methods))) as Hin.
  { apply namesFor_elem. exists f. split; [|done].
    by apply elem_of_map_to_list. }
  rewrite decide_True.
  - eexists. split; [done|]. by apply uniqueAndSort_elem.
  - split; [done|]. intros Hnil. rewrite Hnil in Hin.
    by apply elem_of_nil in Hin.
Qed.

Lemma foldl_insert_is_Some (l : list (string * string)) m n :
  n ∈ l.*1 → is_Some (foldl recordEntry m l !! n).
Proof.
  induction l as [|[k v] l IH] using rev_ind; [by intros ?%elem_of_nil|].
  rewrite fmap_app, foldl_app. simpl. unfold recordEntry at 1. simpl.
  destruct (decide (k = n)) as [->|Hne].
  - rewrite lookup_insert_eq. eauto.
  - rewrite lookup_insert_ne by done.
    intros [?|?%list_elem_of_singleton]%elem_of_app; [auto|by subst].
Qed.

Lemma foldl_insert_consistent (l : list (string * string)) n f :
  consistentFiles l →
  foldl recordEntry ∅ l !! n = Some f ↔ (n, f) ∈ l.
Proof.
  intros Hc. split.
  - intros (before & after & -> & _)%foldl_insert_Some.
    apply elem_of_app. right. left.
  - intros Hin.
    destruct (foldl_insert_is_Some l ∅ n) as [f' Hf'].
    { apply list_elem_of_fmap. by exists (n, f). }
    rewrite Hf'. f_equal.
    apply foldl_insert_Some in Hf' as (before & after & -> & _).
    eapply Hc; [|done]. apply elem_of_app. right. left.
Qed.

Lemma recordedTypes_perm service service' methods methods' :
  Service.Methods service' ≡ₚ Service.Methods service →
  methods' ≡ₚ methods →
  recordedTypes service' methods' ≡ₚ recordedTypes service methods.
Proof.
  intros Hs Hm. unfold recordedTypes.
  rewrite (methodMap_perm _ _ Hm). by apply Permutation_flat_map.
Qed.

Lemma typeFileMap_perm service service' methods methods' :
  Service.Methods service' ≡ₚ Service.Methods service →
  methods' ≡ₚ methods →
  consistentFiles (recordedTypes service methods) →
  typeFileMap service' methods' = typeFileMap service methods.
Proof.
  intros Hs Hm Hc.
  pose proof (recordedTypes_perm _ _ _ _ Hs Hm) as Hp.
  assert (consistentFiles (recordedTypes service' methods')) as Hc'.
  { intros n f1 f2. rewrite !Hp. apply Hc. }
  apply map_eq. intros n. apply option_eq. intros f.
  rewrite !typeFileMap_recorded, !foldl_insert_consistent by done.
  by rewrite Hp.
Qed.

(** With a simple name declared in two files the order of the methods of
    the service decides which file keeps the name. *)
Lemma collectTypeImports_order_matters :
  methodInfos shopService = Some shopMethods ∧
  methodInfos shopService_swapped = Some (reverse shopMethods) ∧
  Service.Methods shopService_swapped ≡ₚ Service.Methods shopService ∧
  collectTypeImports shopService_swapped (reverse shopMethods)
    ≠ collectTypeImports shopService shopMethods.
Proof.
  split; [by vm_compute|]. split; [by vm_compute|].
  split; [apply reverse_Permutation|]. by_compute.
Qed.

(** C4: the groups computed for a service do not depend on the order of the
    method-binding list, nor on the order in which the maps are ranged over,
    nor, as long as no simple type name is recorded with two files, on the
    order of the methods of the service; the names of a group are free of
    duplicates and increasing; the import statements are written in
    increasing order of the import paths, one per group, so that the text of
    the import block is the same for every such order. *)
Theorem collectTypeImports_canonical service methods :
  (∀ service' methods',
     Service.Methods service' ≡ₚ Service.Methods service →
     methods' ≡ₚ methods →
     consistentFiles (recordedTypes service methods) →
     collectTypeImports service' methods'
       = collectTypeImports service methods) ∧
  (∀ methods',
     methods' ≡ₚ methods →
     collectTypeImports service methods'
       = collectTypeImports service methods) ∧
  (∀ entries,
     entries ≡ₚ map_to_list (typeFileMap service methods) →
     collectTypeImports_in entries = collectTypeImports service methods) ∧
  (∀ path names,
     collectTypeImports service methods !! path = Some names →
     NoDup names ∧ StronglySorted String.le names) ∧
  (∀ data buf,
     ServiceInfo.TypeImports data = collectTypeImports service methods →
     ∃ paths,
       StronglySorted String.le paths ∧ NoDup paths ∧
       (∀ p, p ∈ paths ↔ is_Some (collectTypeImports service methods !! p)) ∧
       ∀ keys,
         keys ≡ₚ (map_to_list (ServiceInfo.TypeImports data)).*1 →
         writeTypeImports_in keys data buf
           = foldl (writeTypeImport data) buf paths) ∧
  (∀ service' methods' data data' buf,
     Service.Methods service' ≡ₚ Service.Methods service →
     methods' ≡ₚ methods →
     consistentFiles (recordedTypes service methods) →
     ServiceInfo.TypeImports data = collectTypeImports service methods →
     ServiceInfo.TypeImports data' = collectTypeImports service' methods' →
     ServiceInfo.TypesImportPath data = ServiceInfo.TypesImportPath data' →
     writeTypeImports data buf = writeTypeImports data' buf).
Proof.
  split; [|split; [|split; [|split; [|split]]]].
  - intros service' methods' Hs Hm Hc. unfold collectTypeImports.
    by rewrite (typeFileMap_perm _ _ _ _ Hs Hm Hc).
  - intros methods' Hp. unfold collectTypeImports, typeFileMap.
    by rewrite (methodMap_perm _ _ Hp).
  - intros entries Hp. by apply collectTypeImports_in_order.
  - intros path names [_ ->]%collectTypeImports_lookup.
    split; [apply uniqueAndSort_NoDup|apply uniqueAndSort_sorted].
  - intros data buf Hdata.
    exists (sortStrings (map_to_list (ServiceInfo.TypeImports data)).*1).
    split; [apply sortStrings_sorted|]. split; [|split].
    + rewrite sortStrings_perm. apply NoDup_fst_map_to_list.
    + intros p. rewrite sortStrings_perm, <- Hdata.
      rewrite list_elem_of_fmap. split.
      * intros ([k v] & -> & Hkv). apply elem_of_map_to_list in Hkv. eauto.
      * intros [v Hv]. exists (p, v). split; [done|].
        by apply elem_of_map_to_list.
    + intros keys Hk. by apply writeTypeImports_in_sorted.
  - intros service' methods' data data' buf Hs Hm Hc Hd Hd' Hroot.
    unfold writeTypeImports.
    assert (ServiceInfo.TypeImports data = ServiceInfo.TypeImports data')
      as Hi.
    { rewrite Hd, Hd'. unfold collectTypeImports.
      by rewrite (typeFileMap_perm _ _ _ _ Hs Hm Hc). }
    rewrite Hi. by apply writeTypeImports_in_ext.
Qed.

Lemma collectTypeImports_canonical_witness :
  collectTypeImports
    (Service.mk "MixedService" (reverse (Service.Methods mixedService)))
    (reverse mixedMethods)
  = collectTypeImports mixedService mixedMethods.
Proof.
  destruct (collectTypeImports_canonical mixedService mixedMethods)
    as [H _].
  apply H; [apply reverse_Permutation..|].
  assert (recordedTypes mixedService mixedMethods
          = [ ("GetUserReq", "proto/user/user.proto");
              ("GetUserResp", "proto/user/user.proto");
              ("Item", "proto/b/b.proto"); ("ListBResp", "proto/b/b.proto") ])
    as -> by by vm_compute.
  intros n f1 f2 H1 H2.
  rewrite !elem_of_cons, elem_of_nil in H1, H2.
  destruct H1 as [H1|[H1|[H1|[H1|[]]]]], H2 as [H2|[H2|[H2|[H2|[]]]]];
    congruence.
Defined.

(** ** Types that share a simple name *)

(** C10: a type name belongs to at most one group; the group is the one of
    the file recorded last for that name during the scan of the methods, so
    that a file recorded earlier for the same name gets no entry for it. *)
Theorem collectTypeImports_simple_names service methods :
  (∀ p1 p2 names1 names2 n,
     collectTypeImports service methods !! p1 = Some names1 →
     collectTypeImports service methods !! p2 = Some names2 →
     n ∈ names1 → n ∈ names2 → p1 = p2) ∧
  (∀ p names n,
     collectTypeImports service methods !! p = Some names → n ∈ names →
     ∃ before file after,
       recordedTypes service methods = before ++ (n, file) :: after ∧
       (n ∉ after.*1) ∧ protoFileToImportPath file = p) ∧
  (∀ before n file after,
     recordedTypes service methods = before ++ (n, file) :: after →
     n ∉ after.*1 → protoFileToImportPath file ≠ "" →
     ∃ names,
       collectTypeImports service methods !! protoFileToImportPath file
         = Some names ∧ n ∈ names) ∧
  recordedTypes shopService shopMethods
    = [ ("Item", "proto/a/a.proto"); ("ListAResp", "proto/a/a.proto");
        ("Item", "proto/b/b.proto"); ("ListBResp", "proto/b/b.proto") ] ∧
  collectTypeImports shopService shopMethods
    = <[ "proto/a/a" := ["ListAResp"] ]>
        (<[ "proto/b/b" := ["Item"; "ListBResp"] ]> ∅).
Proof.
  split; [|split; [|split; [|split; by vm_compute]]].
  - intros p1 p2 names1 names2 n H1 H2 Hn1 Hn2.
    destruct (collectTypeImports_elem _ _ _ _ _ H1 Hn1) as (f1 & Hf1 & <-).
    destruct (collectTypeImports_elem _ _ _ _ _ H2 Hn2) as (f2 & Hf2 & <-).
    congruence.
  - intros p names n Hp Hn.
    destruct (collectTypeImports_elem _ _ _ _ _ Hp Hn) as (f & Hf & <-).
    rewrite typeFileMap_recorded in Hf.
    apply foldl_insert_Some in Hf as (before & after & ? & ?).
    by exists before, f, after.
  - intros before n file after Hrec Hn Hp.
    apply collectTypeImports_intro; [|done].
    rewrite typeFileMap_recorded, Hrec. by apply foldl_insert_last.
Qed.

Lemma collectTypeImports_simple_names_witness :
  ∃ names,
    collectTypeImports shopService shopMethods !! "proto/b/b" = Some names
    ∧ "Item" ∈ names.
Proof.
  destruct (collectTypeImports_simple_names shopService shopMethods)
    as (_ & _ & H & _).
  apply (H [ ("Item", "proto/a/a.proto"); ("ListAResp", "proto/a/a.proto") ]
           "Item" "proto/b/b.proto" [ ("ListBResp", "proto/b/b.proto") ]);
    [reflexivity|by_compute|discriminate].
Defined.

(** ** The reset of an output directory *)

Lemma wellFormed_ancestor fs p q :
  wellFormed fs → is_Some (fs !! (p ++ q)) → q ≠ [] → fs !! p = Some Dir.
Proof.
  intros Hwf. induction q as [|x q IH] using rev_ind; [done|].
  intros Hs _. rewrite (assoc_L (++)) in Hs. apply Hwf in Hs.
  destruct (decide (q = [])) as [->|Hne]; [by rewrite app_nil_r in Hs|].
  apply IH; [by rewrite Hs|done].
Qed.

Lemma walk_lookup fs cur rest n :
  walk fs cur rest = inl n → fs !! (cur ++ rest) = Some n.
Proof.
  revert cur. induction rest as [|x rest IH]; intros cur; simpl.
  - rewrite app_nil_r. by destruct (fs !! cur); [intros [= ->]|].
  - destruct (fs !! cur) as [[|d]|]; [|done..].
    intros H%IH. by rewrite <- (assoc_L (++)) in H.
Qed.

Lemma walk_wellFormed fs cur rest n :
  wellFormed fs → fs !! (cur ++ rest) = Some n → walk fs cur rest = inl n.
Proof.
  intros Hwf. revert cur. induction rest as [|x rest IH]; intros cur Hn.
  - rewrite app_nil_r in Hn. simpl. by rewrite Hn.
  - simpl. rewrite (wellFormed_ancestor fs cur (x :: rest)); [|done| |done].
    + apply IH. by rewrite <- (assoc_L (++)).
    + by rewrite Hn.
Qed.

Lemma os_Stat_inl dir fs n :
  os_Stat dir fs = inl n → dir ≠ "" ∧ fs !! resolve dir = Some n.
Proof.
  unfold os_Stat. case_decide; [done|].
  destruct (walk fs [] (resolve dir)) as [n'|e] eqn:Hw; [|done].
  intros [= ->]. split; [done|]. by apply walk_lookup in Hw.
Qed.


Lemma without_lookup p fs k :
  without p fs !! k = if decide (p `prefix_of` k) then None else fs !! k.
Proof.
  unfold without. rewrite map_lookup_filter.
  destruct (fs !! k) as [n|]; simpl; [|by case_decide].
  case_decide.
  - by rewrite option_guard_False by (simpl; tauto).
  - by rewrite option_guard_True.
Qed.

Lemma resetDir_lookup p fs k :
  resetDir p fs !! k =
    if decide (p = k) then Some Dir
    else if decide (p `prefix_of` k) then None else fs !! k.
Proof.
  unfold resetDir. case_decide as Hpk.
  - subst. apply lookup_insert_eq.
  - rewrite lookup_insert_ne by done. apply without_lookup.
Qed.



Lemma resetDir_wellFormed p fs :
  wellFormed fs → is_Some (fs !! p) → wellFormed (resetDir p fs).
Proof.
  intros Hwf Hp q x. rewrite !resetDir_lookup.
  destruct (decide (p = q ++ [x])) as [->|Hne].
  - intros _. rewrite decide_False by (intros H; by apply (f_equal length) in H;
      rewrite length_app in H; simpl in H; lia).
    rewrite decide_False by apply prefix_snoc_not. by apply (Hwf q x).
  - case_decide as Hpre; [by intros [? ?]|]. intros Hs.
    case_decide; [done|].
    rewrite decide_False; [by apply (Hwf q x)|].
    intros Hq. apply Hpre. by apply prefix_app_r.
Qed.

Lemma mkdirAll_fresh fs cur rest :
  (∀ i, i < length rest → fs !! (cur ++ take i rest) = Some Dir) →
  fs !! (cur ++ rest) = None →
  mkdirAll fs cur rest = (None, <[cur ++ rest := Dir]> fs).
Proof.
  revert cur. induction rest as [|x rest IH]; intros cur Hanc Hnone; simpl.
  - rewrite app_nil_r in *. by rewrite Hnone.
  - pose proof (Hanc 0 ltac:(simpl; lia)) as H0. simpl in H0.
    rewrite app_nil_r in H0. rewrite H0.
    rewrite IH.
    + by rewrite <- (assoc_L (++)).
    + intros i Hi. rewrite <- (assoc_L (++)). apply (Hanc (S i)). simpl. lia.
    + by rewrite <- (assoc_L (++)).
Qed.

Lemma os_MkdirAll_without dir fs :
  wellFormed fs → dir ≠ "" → is_Some (fs !! resolve dir) →
  os_MkdirAll dir (without (resolve dir) fs)
    = (None, resetDir (resolve dir) fs).
Proof.
  intros Hwf Hne Hs. unfold os_MkdirAll. rewrite decide_False by done.
  rewrite mkdirAll_fresh; [done|..].
  - intros i Hi. simpl. rewrite without_lookup.
    rewrite decide_False.
    + apply (wellFormed_ancestor fs _ (drop i (resolve dir))); [done|..].
      * by rewrite take_drop.
      * intros Hnil. apply (f_equal length) in Hnil.
        rewrite length_drop in Hnil. simpl in Hnil. lia.
    + intros Hpre%prefix_length. rewrite length_take in Hpre. lia.
  - simpl. rewrite without_lookup. by rewrite decide_True.
Qed.

(** The reset of a path that exists, in a well-formed tree. *)
Lemma clearOutputDir_existing dir fs n :
  wellFormed fs → os_Stat dir fs = inl n →
  clearOutputDir dir fs = (None, resetDir (resolve dir) fs).
Proof.
  intros Hwf Hstat. pose proof (os_Stat_inl _ _ _ Hstat) as [Hne Hn].
  unfold clearOutputDir. rewrite decide_False by done. rewrite Hstat.
  unfold os_RemoveAll. rewrite decide_False by done.
  rewrite (walk_wellFormed fs [] (resolve dir) n) by done.
  fold (without (resolve dir) fs).
  apply os_MkdirAll_without; [done..|by rewrite Hn].
Qed.

(** The reset fails only when [os.Stat] does, for another reason than the
    absence of the path; the tree is then unchanged. *)
Lemma clearOutputDir_cases dir fs :
  wellFormed fs →
  clearOutputDir dir fs = (None, fs) ∧
    (dir = "" ∨ ∃ err, os_Stat dir fs = inr err ∧ os_IsNotExist err = true)
  ∨ (∃ n, os_Stat dir fs = inl n ∧
          clearOutputDir dir fs = (None, resetDir (resolve dir) fs))
  ∨ (∃ err, os_Stat dir fs = inr err ∧ os_IsNotExist err = false ∧
            clearOutputDir dir fs = (Some err, fs)).
Proof.
  intros Hwf. destruct (decide (dir = "")) as [->|Hne]; [left; auto|].
  destruct (os_Stat dir fs) as [n|err] eqn:Hstat.
  - right. left. exists n. split; [done|]. by eapply clearOutputDir_existing.
  - unfold clearOutputDir. rewrite decide_False by done. rewrite Hstat.
    destruct (os_IsNotExist err) eqn:He.
    + left. split; [done|]. right. eauto.
    + right. right. eauto.
Qed.


Lemma wellFormed_check (fs : FS) :
  map_Forall (λ k _, k = [] ∨ fs !! removelast k = Some Dir) fs →
  wellFormed fs.
Proof.
  intros Hall p x [n Hn]. destruct (Hall _ _ Hn) as [Hnil|Hdir].
  - by destruct p.
  - by rewrite removelast_last in Hdir.
Qed.




(** * Further properties *)

(** ** The bindings of a service *)

Lemma extractHttpRule_verb method rule :
  extractHttpRule method = Some rule →
  HttpRule.Method rule ∈ verbs ∧ HttpRule.Path rule ≠ "" ∧
  ToLower (HttpRule.Method rule) = HttpRule.Method rule.
Proof.
  unfold extractHttpRule, verbs.
  destruct (Method.Options method) as [options|]; [|done].
  destruct (MethodOptions.Http options) as [r|]; [|done].
  destruct (annotations.Pattern r) as [[v|v|v|v|v|k v]|]; try done;
    (case_decide as Hlen; [|done]); intros [= <-]; simpl;
    (split; [rewrite !elem_of_cons; tauto|]);
    (split; [by destruct v; [simpl in Hlen; lia|]|done]).
Qed.

Lemma methodInfos_step_bound acc m rule :
  extractHttpRule m = Some rule →
  methodInfos_step (Some acc) m =
    match Method.Input m, Method.Output m with
    | Some input, Some output =>
        Some (acc ++
          [MethodInfo.mk (Method.Name m) (HttpRule.Path rule)
             (HttpRule.Method rule) (Message.Name input)
             (Message.Name output)])
    | _, _ => None
    end.
Proof.
  intros Hr. unfold methodInfos_step. rewrite Hr.
  by destruct (extractHttpRule_verb _ _ Hr) as (_ & _ & ->).
Qed.

Lemma methodInfos_None_fold l :
  foldl methodInfos_step None l = None.
Proof. by induction l. Qed.

Lemma methodInfos_fold acc methods l :
  foldl methodInfos_step (Some acc) l = Some methods →
  ∃ rest, methods = acc ++ rest ∧ Forall2 bindingOf rest (filter bound l).
Proof.
  revert acc. induction l as [|m l IH]; intros acc.
  - intros [= <-]. exists []. by rewrite app_nil_r.
  - rewrite filter_cons. cbn [foldl].
    destruct (decide (bound m)) as [[rule Hr]|Hn].
    + rewrite (methodInfos_step_bound _ _ _ Hr).
      destruct (Method.Input m) as [input|] eqn:Hi;
        [destruct (Method.Output m) as [output|] eqn:Ho|];
        [|by rewrite methodInfos_None_fold..].
      intros (rest & -> & Hrest)%IH. eexists. rewrite <- (assoc_L (++)).
      split; [done|]. simpl. constructor; [|done].
      by exists rule, input, output.
    + rewrite methodInfos_step_unbound; [apply IH|].
      destruct (extractHttpRule m) eqn:Hr; [|done].
      exfalso. apply Hn. by eexists.
Qed.

(** X1: the binding list has one element for every bound method of the
    service and for no other, in the order of declaration; the element
    holds the name of the method, the path and the verb of its binding, and
    the simple names of its request and response types; the verb is one of
    the five, the path is not empty. *)
Theorem methodInfos_bindings service methods :
  methodInfos service = Some methods →
  Forall2 bindingOf methods (filter bound (Service.Methods service)) ∧
  Forall (λ info, MethodInfo.HttpMethod info ∈ verbs
                  ∧ MethodInfo.HttpPath info ≠ "") methods.
Proof.
  intros (rest & -> & H)%methodInfos_fold. simpl. split; [done|].
  clear -H. induction H as [|info m rest l Hb _ IH]; constructor; [|done].
  destruct Hb as (rule & input & output & Hr & _ & _ & ->). simpl.
  by destruct (extractHttpRule_verb _ _ Hr) as (? & ? & _).
Qed.

Lemma methodInfos_bindings_witness :
  Forall2 bindingOf shopMethods (filter bound (Service.Methods shopService)) ∧
  Forall (λ info, MethodInfo.HttpMethod info ∈ verbs
                  ∧ MethodInfo.HttpPath info ≠ "") shopMethods.
Proof. apply (methodInfos_bindings shopService). reflexivity. Defined.

Lemma methodInfos_panic_fold acc l :
  foldl methodInfos_step (Some acc) l = None ↔
  ∃ method, method ∈ l ∧ bound method ∧
            (Method.Input method = None ∨ Method.Output method = None).
Proof.
  revert acc. induction l as [|m l IH]; intros acc.
  - split; [done|]. by intros (? & ?%elem_of_nil & _).
  - cbn [foldl]. destruct (decide (bound m)) as [[rule Hr]|Hn].
    + rewrite (methodInfos_step_bound _ _ _ Hr).
      destruct (Method.Input m) as [input|] eqn:Hi;
        [destruct (Method.Output m) as [output|] eqn:Ho|].
      * rewrite IH. split.
        -- intros (m' & ? & ?). exists m'. split; [by right|done].
        -- intros (m' & [->|?]%elem_of_cons & Hb & Hnone); [|by eauto].
           destruct Hnone; congruence.
      * rewrite methodInfos_None_fold. split; [intros _|done].
        exists m. split; [left|]. split; [by exists rule|auto].
      * rewrite methodInfos_None_fold. split; [intros _|done].
        exists m. split; [left|]. split; [by exists rule|auto].
    + rewrite methodInfos_step_unbound.
      2:{ destruct (extractHttpRule m) eqn:Hr; [|done].
          exfalso. apply Hn. by eexists. }
      rewrite IH. split.
      * intros (m' & ? & ?). exists m'. split; [by right|done].
      * intros (m' & [->|?]%elem_of_cons & Hb & Hnone); [done|by eauto].
Qed.

(** X2: the generation for a service dereferences a nil descriptor exactly
    when a bound method of the service has no request or no response
    descriptor; the file system is then as it was. *)
Theorem generateFrontendApi_panic service config fs :
  ((generateFrontendApi service config fs).1 = Panic ↔
   ∃ method, method ∈ Service.Methods service ∧ bound method ∧
             (Method.Input method = None ∨ Method.Output method = None)) ∧
  ((generateFrontendApi service config fs).1 = Panic →
   (generateFrontendApi service config fs).2 = fs).
Proof.
  rewrite <- (methodInfos_panic_fold []). fold (methodInfos service).
  unfold generateFrontendApi.
  destruct (methodInfos service) as [methods|]; [|done].
  assert (∀ r : outcome * FS, r.1 ≠ Panic →
            (r.1 = Panic ↔ Some methods = None) ∧ (r.1 = Panic → r.2 = fs))
    as Hret by (by intros r Hr; split; [split|]).
  repeat case_decide; try by apply Hret.
  destruct (writeTS _ _ _ _ _ _ _) as [[e|] fs1]; [by apply Hret|].
  destruct (writeJS _ _ _ _ _ _) as [e fs2]. by apply Hret.
Qed.

(** ** The name of the object and of the files *)


Lemma lowerByte_not_slash a : a ≠ "/"%char → lowerByte a ≠ "/"%char.
Proof. by destruct a as [[] [] [] [] [] [] [] []]. Qed.

Lemma toCamelCase_String a s :
  toCamelCase (String a s) = String (lowerByte a) s.
Proof. done. Qed.



(** ** The import path of a schema file *)

Lemma stripPrefix_app p l : stripPrefix p (p ++ l) = Some l.
Proof. by apply stripPrefix_Some. Qed.

Lemma TrimSuffix_app s suffix : TrimSuffix (s +:+ suffix) suffix = s.
Proof.
  unfold TrimSuffix. rewrite bytes_app, reverse_app, stripPrefix_app.
  by rewrite reverse_involutive, ofBytes_bytes.
Qed.

Lemma TrimPrefix_app s prefix : TrimPrefix (prefix +:+ s) prefix = s.
Proof.
  unfold TrimPrefix. by rewrite bytes_app, stripPrefix_app, ofBytes_bytes.
Qed.

Lemma TrimPrefix_absent s prefix :
  stripPrefix (bytes prefix) (bytes s) = None → TrimPrefix s prefix = s.
Proof. unfold TrimPrefix. by intros ->. Qed.

Lemma ReplaceAll_absent s old new :
  old ∉ bytes s → ReplaceAll s old new = s.
Proof.
  induction s as [|a s IH]; [done|]. cbn.
  intros [? ?]%not_elem_of_cons. rewrite decide_False by done.
  by rewrite IH.
Qed.

Lemma ReplaceAll_gone s old new :
  old ≠ new → old ∉ bytes (ReplaceAll s old new).
Proof.
  intros Hne. induction s as [|a s IH]; cbn; [apply not_elem_of_nil|].
  apply not_elem_of_cons. split; [|done]. by case_decide.
Qed.

Lemma append_nonempty_r s1 s2 : s2 ≠ "" → s1 +:+ s2 ≠ "".
Proof. destruct s1; [done|]. by rewrite append_String. Qed.

(** X4: the import path of a schema file never holds a backslash; for a
    file [stem.proto] it is the stem with every backslash turned into a
    slash, after one leading [./] of the stem is dropped. *)
Theorem protoFileToImportPath_stem :
  (∀ file, "\"%char ∉ bytes (protoFileToImportPath file)) ∧
  (∀ stem,
     protoFileToImportPath ("./" +:+ stem +:+ ".proto")
       = ReplaceAll stem "\" "/") ∧
  (∀ stem,
     stripPrefix (bytes "./") (bytes stem) = None →
     protoFileToImportPath (stem +:+ ".proto") = ReplaceAll stem "\" "/") ∧
  (∀ stem,
     stripPrefix (bytes "./") (bytes stem) = None →
     "\"%char ∉ bytes stem →
     protoFileToImportPath (stem +:+ ".proto") = stem).
Proof.
  assert (∀ stem, stripPrefix (bytes "./") (bytes stem) = None →
            protoFileToImportPath (stem +:+ ".proto")
              = ReplaceAll stem "\" "/") as Hplain.
  { intros stem Hp. unfold protoFileToImportPath.
    rewrite decide_False by by apply append_nonempty_r.
    by rewrite TrimSuffix_app, TrimPrefix_absent. }
  split; [|split; [|split; [done|]]].
  - intros file. unfold protoFileToImportPath.
    case_decide; [cbn; apply not_elem_of_nil|]. by apply ReplaceAll_gone.
  - intros stem. unfold protoFileToImportPath.
    rewrite decide_False by done.
    rewrite <- append_assoc, TrimSuffix_app.
    by rewrite (TrimPrefix_app stem "./").
  - intros stem Hp Hb. rewrite Hplain by done. by apply ReplaceAll_absent.
Qed.

Lemma protoFileToImportPath_stem_witness :
  protoFileToImportPath "proto/user/user.proto" = "proto/user/user" ∧
  protoFileToImportPath "proto\user.proto" = "proto/user".
Proof.
  destruct protoFileToImportPath_stem as (_ & _ & H3 & H4).
  split.
  - apply (H4 "proto/user/user"); [reflexivity|by_compute].
  - apply (H3 "proto\user"). reflexivity.
Defined.

(** ** De-duplication and sorting *)

(** X5: [uniqueAndSort] returns a list with exactly the members of its
    argument; a list that is already increasing and free of duplicates is
    returned as it is, so a second application changes nothing. *)
Theorem uniqueAndSort_fixed :
  (∀ strs x, x ∈ uniqueAndSort strs ↔ x ∈ strs) ∧
  (∀ strs, length (uniqueAndSort strs) ≤ length strs) ∧
  (∀ strs,
     NoDup strs → StronglySorted String.le strs → uniqueAndSort strs = strs) ∧
  (∀ strs, uniqueAndSort (uniqueAndSort strs) = uniqueAndSort strs).
Proof.
  assert (∀ strs, NoDup strs → StronglySorted String.le strs →
            uniqueAndSort strs = strs) as Hfix.
  { intros strs Hnd Hs.
    apply (StronglySorted_unique String.le);
      [apply uniqueAndSort_sorted|done|].
    apply NoDup_Permutation; [apply uniqueAndSort_NoDup|done|].
    apply uniqueAndSort_elem. }
  split; [apply uniqueAndSort_elem|]. split; [|split; [done|]].
  - intros strs. unfold uniqueAndSort, uniqueAndSort_in.
    rewrite sortStrings_perm.
    apply submseteq_length, NoDup_submseteq; [apply NoDup_elements|].
    intros x. by rewrite elem_of_elements, elem_of_list_to_set.
  - intros strs. apply Hfix;
      [apply uniqueAndSort_NoDup|apply uniqueAndSort_sorted].
Qed.

Lemma uniqueAndSort_fixed_witness :
  uniqueAndSort ["GetUserReq"; "GetUserResp"] = ["GetUserReq"; "GetUserResp"].
Proof.
  destruct uniqueAndSort_fixed as (_ & _ & H & _).
  apply H; by_compute.
Defined.

(** ** Where the imported names come from *)

Lemma recordedOf_elem msg n f :
  (n, f) ∈ recordedOf msg ↔
  ∃ m file, msg = Some m ∧ Message.ParentFile m = Some file ∧
            Message.Name m = n ∧ FileDescriptor.Path file = f.
Proof.
  unfold recordedOf. destruct msg as [m|].
  - destruct (Message.ParentFile m) as [file|] eqn:Hp.
    + rewrite list_elem_of_singleton. split.
      * intros [= -> ->]. by exists m, file.
      * intros (m' & file' & [= <-] & Hf & <- & <-). congruence.
    + split; [by intros ?%elem_of_nil|].
      intros (m' & file' & [= <-] & Hf & _). congruence.
  - split; [by intros ?%elem_of_nil|]. by intros (? & ? & ? & _).
Qed.

Lemma recordedTypes_elem service methods n f :
  (n, f) ∈ recordedTypes service methods ↔
  ∃ method msg file,
    method ∈ Service.Methods service ∧
    Method.Name method ∈ MethodInfo.MethodName <$> methods ∧
    (Method.Input method = Some msg ∨ Method.Output method = Some msg) ∧
    Message.ParentFile msg = Some file ∧
    Message.Name msg = n ∧ FileDescriptor.Path file = f.
Proof.
  unfold recordedTypes. rewrite list_elem_of_In, in_flat_map. split.
  - intros (method & Hm%list_elem_of_In & Hin%list_elem_of_In).
    rewrite methodMap_lookup in Hin. case_decide as Hl; [|by apply elem_of_nil in Hin].
    simpl in Hin. apply elem_of_app in Hin.
    destruct Hin as [(m & file & ? & ? & ? & ?)%recordedOf_elem
                    |(m & file & ? & ? & ? & ?)%recordedOf_elem];
      exists method, m, file; auto 10.
  - intros (method & m & file & Hm & Hl & Hio & Hf & Hn & Hp).
    exists method. split; [by apply list_elem_of_In|].
    apply list_elem_of_In. rewrite methodMap_lookup, decide_True by done.
    simpl. apply elem_of_app.
    destruct Hio as [Hi|Ho]; [left|right]; apply recordedOf_elem; eauto 10.
Qed.

(** X6: a group never has the empty import path as its key and is never
    empty; every name of a group is the simple name of the request or of the
    response type of a method of the binding list, and the key of the group
    is the import path of a file that declares a type of that name;
    conversely every such type has its name in a group, unless the file
    recorded last for the name has the empty import path. *)
Theorem collectTypeImports_direct_types service methods :
  (∀ p names,
     collectTypeImports service methods !! p = Some names →
     p ≠ "" ∧ names ≠ []) ∧
  (∀ p names n,
     collectTypeImports service methods !! p = Some names → n ∈ names →
     ∃ method msg file,
       method ∈ Service.Methods service ∧
       Method.Name method ∈ MethodInfo.MethodName <$> methods ∧
       (Method.Input method = Some msg ∨ Method.Output method = Some msg) ∧
       Message.ParentFile msg = Some file ∧
       Message.Name msg = n ∧
       protoFileToImportPath (FileDescriptor.Path file) = p) ∧
  (∀ method msg file,
     method ∈ Service.Methods service →
     Method.Name method ∈ MethodInfo.MethodName <$> methods →
     Method.Input method = Some msg ∨ Method.Output method = Some msg →
     Message.ParentFile msg = Some file →
     ∃ f,
       typeFileMap service methods !! Message.Name msg = Some f ∧
       (protoFileToImportPath f ≠ "" →
        ∃ names,
          collectTypeImports service methods !! protoFileToImportPath f
            = Some names ∧ Message.Name msg ∈ names)).
Proof.
  split; [|split].
  - intros p names Hp. unfold collectTypeImports in Hp.
    rewrite collectTypeImports_in_lookup in Hp.
    case_decide as Hc; [|done]. destruct Hc as [? Hne].
    split; [done|]. injection Hp as <-. intros Hnil. apply Hne.
    destruct (namesFor p _) as [|x l]; [done|].
    assert (x ∈ uniqueAndSort (x :: l)) as Hx
      by (apply uniqueAndSort_elem; left).
    rewrite Hnil in Hx. by apply elem_of_nil in Hx.
  - intros p names n Hp Hn.
    destruct (collectTypeImports_elem _ _ _ _ _ Hp Hn) as (f & Hf & <-).
    rewrite typeFileMap_recorded in Hf.
    apply foldl_insert_Some in Hf as (before & after & Hrec & _).
    assert ((n, f) ∈ recordedTypes service methods) as Hin.
    { rewrite Hrec. apply elem_of_app. right. left. }
    apply recordedTypes_elem in Hin
      as (method & msg & file & ? & ? & ? & ? & ? & <-).
    by exists method, msg, file.
  - intros method msg file Hm Hl Hio Hf.
    assert ((Message.Name msg, FileDescriptor.Path file)
              ∈ recordedTypes service methods) as Hin.
    { apply recordedTypes_elem. by exists method, msg, file. }
    destruct (foldl_insert_is_Some (recordedTypes service methods) ∅
                (Message.Name msg)) as [f Hlook].
    { apply list_elem_of_fmap. by eexists (_, _). }
    rewrite <- typeFileMap_recorded in Hlook.
    exists f. split; [done|]. intros Hne.
    by apply collectTypeImports_intro.
Qed.

Lemma collectTypeImports_direct_types_witness :
  ∃ f,
    typeFileMap userService [getUserInfo] !! "GetUserReq" = Some f ∧
    (protoFileToImportPath f ≠ "" →
     ∃ names,
       collectTypeImports userService [getUserInfo]
         !! protoFileToImportPath f = Some names ∧ "GetUserReq" ∈ names).
Proof.
  destruct (collectTypeImports_direct_types userService [getUserInfo])
    as (_ & _ & H).
  apply (H getUser (userMessage "GetUserReq")
           (FileDescriptor.mk "proto/user/user.proto"));
    [left|left|by left|reflexivity].
Defined.

(** ** The shape of the rendered text *)

Lemma foldl_append {A} (f : A → string) (write : string → A → string)
    buf l :
  (∀ buf x, write buf x = buf +:+ f x) →
  foldl write buf l = buf +:+ concatLines (f <$> l).
Proof.
  intros Hw. revert buf. induction l as [|x l IH]; intros buf; simpl.
  - by rewrite append_empty_r.
  - by rewrite IH, Hw, append_assoc.
Qed.

Lemma writeMethods_lines (entry : MethodInfo.t → string)
    (write : nat → string → nat * MethodInfo.t → string) ms :
  (∀ n buf i m,
     write n buf (i, m)
       = buf +:+ entry m +:+ (if decide (i < n - 1) then "," +:+ nl else nl)) →
  ∀ m k buf,
    foldl (write (k + S (length ms))) buf
      (zip (seq k (S (length ms))) (m :: ms))
    = buf +:+ Join (entry <$> m :: ms) ("," +:+ nl) +:+ nl.
Proof.
  intros Hw. induction ms as [|m' ms IH]; intros m k buf.
  - cbn [length seq zip zip_with foldl]. rewrite Hw.
    case_decide; [exfalso; lia|done].
  - assert (zip (seq k (S (length (m' :: ms)))) (m :: m' :: ms)
            = (k, m) :: zip (seq (S k) (S (length ms))) (m' :: ms)) as ->
      by done.
    cbn [foldl length]. rewrite (Hw _ buf k m).
    case_decide; [|exfalso; lia].
    replace (k + S (S (length ms))) with (S k + S (length ms)) by lia.
    rewrite (IH m' (S k)).
    change (Join (entry <$> m :: m' :: ms) ("," +:+ nl))
      with (entry m +:+ ("," +:+ nl) +:+ Join (entry <$> m' :: ms) ("," +:+ nl)).
    by rewrite !append_assoc.
Qed.

Lemma writeMethods_entryLines (entry : MethodInfo.t → string)
    (write : nat → string → nat * MethodInfo.t → string) methods buf :
  (∀ n buf i m,
     write n buf (i, m)
       = buf +:+ entry m +:+ (if decide (i < n - 1) then "," +:+ nl else nl)) →
  foldl (write (length methods)) buf (zip (seq 0 (length methods)) methods)
    = buf +:+ entryLines (entry <$> methods).
Proof.
  intros Hw. destruct methods as [|m ms].
  - simpl. by rewrite append_empty_r.
  - apply (writeMethods_lines entry write ms Hw m 0).
Qed.


Lemma writeMethodTS_entry n buf i m :
  writeMethodTS n buf (i, m)
    = buf +:+ entryTS m +:+ (if decide (i < n - 1) then "," +:+ nl else nl).
Proof. unfold writeMethodTS, entryTS. by rewrite !append_assoc. Qed.

Lemma writeTypeImport_line data buf importPath :
  writeTypeImport data buf importPath
    = buf +:+ importLine (ServiceInfo.TypesImportPath data) importPath
                (ServiceInfo.TypeImports data !!! importPath).
Proof.
  unfold writeTypeImport, importLine.
  destruct (negb _ && _); by rewrite ?append_assoc.
Qed.


(** X8: the typed text is the import of the client, one type-only import
    per group in increasing order of the import paths (the root and the
    path joined by one slash unless the root ends with one or the path is
    empty), a blank line, the object with one two-line entry per binding in
    the order of the list, a comma after every entry but the last, a blank
    line and the default export. *)
Theorem generateTypeScriptCode_shape data :
  generateTypeScriptCode data =
    "import service from '" +:+ ServiceInfo.ServiceImport data +:+ "';"
      +:+ nl
      +:+ concatLines
            ((λ p, importLine (ServiceInfo.TypesImportPath data) p
                     (ServiceInfo.TypeImports data !!! p))
               <$> sortStrings (map_to_list (ServiceInfo.TypeImports data)).*1)
      +:+ nl
      +:+ "export const " +:+ ServiceInfo.ApiFileName data +:+ " = {" +:+ nl
      +:+ entryLines (entryTS <$> ServiceInfo.Methods data)
      +:+ "};" +:+ nl +:+ nl
      +:+ "export default " +:+ ServiceInfo.ApiFileName data +:+ ";" +:+ nl.
Proof.
  unfold generateTypeScriptCode. cbv zeta.
  rewrite (writeMethods_entryLines entryTS writeMethodTS)
    by apply writeMethodTS_entry.
  unfold writeTypeImports. rewrite writeTypeImports_in_sorted by done.
  rewrite (foldl_append
             (λ p, importLine (ServiceInfo.TypesImportPath data) p
                     (ServiceInfo.TypeImports data !!! p)))
    by apply writeTypeImport_line.
  by rewrite !append_assoc.
Qed.

(** ** Writing into the target directories *)

Lemma resolve_Join dir file :
  dir ≠ "" → "/"%char ∉ bytes file → file ≠ "" → file ≠ "." →
  resolve (filepath_Join dir file) = resolve dir ++ [file].
Proof.
  intros Hd Hs Hf Hdot. unfold filepath_Join, resolve.
  rewrite !decide_False by done.
  change (dir +:+ "/" +:+ file) with (dir +:+ String "/" file).
  rewrite Split_app, filter_app, (Split_absent file) by done.
  f_equal. rewrite filter_cons, filter_nil. by rewrite decide_True.
Qed.

Lemma filepath_Join_nonempty dir file : dir ≠ "" → filepath_Join dir file ≠ "".
Proof.
  intros Hd. unfold filepath_Join. rewrite decide_False by done.
  case_decide; [done|]. destruct dir; [done|]. by rewrite append_String.
Qed.

Lemma os_Stat_walk dir fs n :
  os_Stat dir fs = inl n → dir ≠ "" ∧ walk fs [] (resolve dir) = inl n.
Proof.
  unfold os_Stat. case_decide; [done|].
  destruct (walk fs [] (resolve dir)) as [n'|e]; [|done].
  by intros [= ->].
Qed.

Lemma os_WriteFile_into dir file data fs :
  os_Stat dir fs = inl Dir →
  "/"%char ∉ bytes file → file ≠ "" → file ≠ "." →
  fs !! (resolve dir ++ [file]) ≠ Some Dir →
  os_WriteFile (filepath_Join dir file) data fs
    = (None, <[resolve dir ++ [file] := File data]> fs).
Proof.
  intros [Hd Hw]%os_Stat_walk Hs Hf Hdot Hn. unfold os_WriteFile.
  rewrite decide_False by by apply filepath_Join_nonempty.
  rewrite resolve_Join by done. rewrite removelast_last, Hw.
  by destruct (fs !! (resolve dir ++ [file])) as [[|?]|].
Qed.

Lemma walk_insert_file fs cur rest p data :
  walk fs cur rest = inl Dir → fs !! p ≠ Some Dir →
  walk (<[p := File data]> fs) cur rest = inl Dir.
Proof.
  intros Hw Hp. revert cur Hw.
  induction rest as [|x rest IH]; intros cur; simpl.
  - destruct (fs !! cur) as [n|] eqn:Hc; [|done]. intros [= ->].
    rewrite lookup_insert_ne by congruence. by rewrite Hc.
  - destruct (fs !! cur) as [[|d]|] eqn:Hc; [|done..]. intros Hw.
    rewrite lookup_insert_ne by congruence. rewrite Hc. by apply IH.
Qed.

Lemma writable_insert file fs t p data :
  writable file fs t → fs !! p ≠ Some Dir →
  writable file (<[p := File data]> fs) t.
Proof.
  intros [Hstat Hfile] Hp. split.
  - apply os_Stat_walk in Hstat as [Hd Hw]. unfold os_Stat.
    rewrite decide_False by done. by rewrite (walk_insert_file _ _ _ _ _ Hw Hp).
  - destruct (decide (p = resolve (OutputPathConfig.Path t) ++ [file]))
      as [->|Hne].
    + by rewrite lookup_insert_eq.
    + by rewrite lookup_insert_ne.
Qed.

Lemma writable_withFile code file file' fs t targets :
  writable file fs t →
  Forall (writable file' fs) targets →
  Forall (writable file' (withFile code file fs t)) targets.
Proof.
  intros [_ Hn] Hall. eapply Forall_impl; [done|]. intros t' Ht'.
  by apply writable_insert.
Qed.

(** The names of the two files of a service are names of files. *)
Lemma TrimSuffix_prefix s suffix :
  bytes (TrimSuffix s suffix) `prefix_of` bytes s.
Proof.
  unfold TrimSuffix.
  destruct (stripPrefix _ _) as [r|] eqn:Hs; [|done].
  apply stripPrefix_Some in Hs. rewrite bytes_ofBytes.
  exists (bytes suffix). apply (f_equal reverse) in Hs.
  by rewrite reverse_involutive, reverse_app, reverse_involutive in Hs.
Qed.

Lemma toCamelCase_no_slash s :
  "/"%char ∉ bytes s → "/"%char ∉ bytes (toCamelCase s).
Proof.
  destruct s as [|a s]; [done|]. rewrite toCamelCase_String. cbn.
  intros [? ?]%not_elem_of_cons. apply not_elem_of_cons.
  split; [|done]. intros Heq. by apply (lowerByte_not_slash a).
Qed.

Lemma apiFile_no_slash service ext :
  "/"%char ∉ bytes (Service.Name service) → "/"%char ∉ bytes ext →
  "/"%char ∉ bytes (apiFile service ext).
Proof.
  intros Hs He. unfold apiFile. rewrite !bytes_app, !not_elem_of_app.
  split; [|split; [by_compute|done]].
  apply toCamelCase_no_slash.
  destruct (TrimSuffix_prefix (Service.Name service) "Service") as [k Hk].
  intros Hin. apply Hs. rewrite Hk. apply elem_of_app. by left.
Qed.

Lemma apiFile_length service ext : 3 ≤ length (bytes (apiFile service ext)).
Proof. unfold apiFile. rewrite !bytes_app, !length_app. simpl. lia. Qed.

Lemma apiFile_proper service ext :
  apiFile service ext ≠ "" ∧ apiFile service ext ≠ ".".
Proof.
  pose proof (apiFile_length service ext) as H.
  split; intros Heq; rewrite Heq in H; simpl in H; lia.
Qed.

Lemma writeTS_missing config serviceName apiFileName methods typeImports
    targets fs :
  Forall (missing fs) targets →
  writeTS config serviceName apiFileName methods typeImports targets fs
    = (None, fs).
Proof.
  induction 1 as [|t targets (err & Hstat & He) _ IH]; simpl; [done|].
  by rewrite Hstat, He.
Qed.

Lemma writeJS_missing config serviceName apiFileName methods targets fs :
  Forall (missing fs) targets →
  writeJS config serviceName apiFileName methods targets fs = (None, fs).
Proof.
  induction 1 as [|t targets (err & Hstat & He) _ IH]; simpl; [done|].
  by rewrite Hstat, He.
Qed.

(** X9: when [os.Stat] reports every target directory of the two flavors
    as not existing, the generation for a service whose bound methods have
    their descriptors writes nothing and returns nil. *)
Theorem generateFrontendApi_missing_targets service config methods fs :
  methodInfos service = Some methods →
  Forall (missing fs)
    (PluginConfig.OutputPaths config ++ PluginConfig.OutputPathsJS config) →
  generateFrontendApi service config fs = (Return None, fs).
Proof.
  intros Hm [Hts Hjs]%Forall_app. unfold generateFrontendApi. rewrite Hm.
  repeat case_decide; try done.
  by rewrite writeTS_missing, writeJS_missing.
Qed.

Lemma generateFrontendApi_missing_targets_witness :
  generateFrontendApi userService
    (parsePluginOptions "output_paths=web/api,output_paths_js=web/js").1
    projectFS
  = (Return None, projectFS).
Proof.
  apply (generateFrontendApi_missing_targets _ _ [getUserInfo]);
    [reflexivity|].
  repeat constructor; eexists; split; reflexivity.
Defined.

Lemma writeTS_writable service config methods targets fs :
  "/"%char ∉ bytes (Service.Name service) →
  Forall (writable (apiFile service ".ts") fs) targets →
  writeTS config (TrimSuffix (Service.Name service) "Service")
    (toCamelCase (TrimSuffix (Service.Name service) "Service") +:+ "Api")
    methods (collectTypeImports service methods) targets fs
  = (None,
     foldl (withFile
              (λ t, generateTypeScriptCode (typedData service config methods t))
              (apiFile service ".ts")) fs targets).
Proof.
  intros Hname. revert fs.
  induction targets as [|t targets IH]; intros fs Hall; [done|].
  inversion Hall as [|? ? Ht Hrest]; subst.
  pose proof Ht as [Hstat Hfile].
  destruct (apiFile_proper service ".ts") as [Hne Hdot].
  cbn [writeTS foldl]. rewrite Hstat.
  change (toCamelCase (TrimSuffix (Service.Name service) "Service")
            +:+ "Api.ts") with (apiFile service ".ts").
  rewrite os_WriteFile_into;
    [|done|apply apiFile_no_slash; [done|by_compute]|done..].
  rewrite IH; [done|].
  eapply Forall_impl; [exact Hrest|]. intros t' Ht'. by apply writable_insert.
Qed.

Lemma writeJS_writable service config methods targets fs :
  "/"%char ∉ bytes (Service.Name service) →
  Forall (writable (apiFile service ".js") fs) targets →
  writeJS config (TrimSuffix (Service.Name service) "Service")
    (toCamelCase (TrimSuffix (Service.Name service) "Service") +:+ "Api")
    methods targets fs
  = (None,
     foldl (withFile
              (λ t, generateJavaScriptCode
                      (untypedData service config methods t))
              (apiFile service ".js")) fs targets).
Proof.
  intros Hname. revert fs.
  induction targets as [|t targets IH]; intros fs Hall; [done|].
  inversion Hall as [|? ? Ht Hrest]; subst.
  pose proof Ht as [Hstat Hfile].
  destruct (apiFile_proper service ".js") as [Hne Hdot].
  cbn [writeJS foldl]. rewrite Hstat.
  change (toCamelCase (TrimSuffix (Service.Name service) "Service")
            +:+ "Api.js") with (apiFile service ".js").
  rewrite os_WriteFile_into;
    [|done|apply apiFile_no_slash; [done|by_compute]|done..].
  rewrite IH.
  - f_equal. f_equal. unfold withFile, untypedData.
    by repeat case_decide.
  - eapply Forall_impl; [exact Hrest|]. intros t' Ht'.
    by apply writable_insert.
Qed.

Lemma writable_foldl code file file' fs targets targets' :
  Forall (writable file fs) targets →
  Forall (writable file' fs) targets' →
  Forall (writable file' (foldl (withFile code file) fs targets)) targets'.
Proof.
  revert fs. induction targets as [|t targets IH]; intros fs Hall Hall';
    [done|].
  inversion Hall as [|? ? Ht Hrest]; subst. simpl.
  apply IH; by apply (writable_withFile _ _ _ _ t).
Qed.

(** X10: when the service has a bound method and no slash in its name,
    there is a typed target, and every target of the two flavors is an
    existing directory in which no directory has the name of the file to
    write, the generation writes
    [<name>Api.ts] into every typed target and [<name>Api.js] into every
    untyped target, each rendered with the import of the client that the
    target overrides or else the default of its flavor, changes nothing
    else and returns nil. *)
Theorem generateFrontendApi_writes service config methods fs :
  methodInfos service = Some methods → methods ≠ [] →
  PluginConfig.OutputPaths config ≠ [] →
  "/"%char ∉ bytes (Service.Name service) →
  Forall (writable (apiFile service ".ts") fs)
    (PluginConfig.OutputPaths config) →
  Forall (writable (apiFile service ".js") fs)
    (PluginConfig.OutputPathsJS config) →
  generateFrontendApi service config fs =
    (Return None,
     foldl (withFile
              (λ t, generateJavaScriptCode
                      (untypedData service config methods t))
              (apiFile service ".js"))
       (foldl (withFile
                 (λ t, generateTypeScriptCode
                         (typedData service config methods t))
                 (apiFile service ".ts"))
          fs (PluginConfig.OutputPaths config))
       (PluginConfig.OutputPathsJS config)).
Proof.
  intros Hm Hne Hts Hname Hwts Hwjs. unfold generateFrontendApi.
  rewrite Hm. rewrite decide_False by by destruct methods.
  rewrite decide_False by by destruct (PluginConfig.OutputPaths config).
  rewrite writeTS_writable by done.
  rewrite writeJS_writable; [done..|]. by apply writable_foldl.
Qed.

Lemma generateFrontendApi_writes_witness :
  generateFrontendApi userService
    (parsePluginOptions
       "output_paths=src/api:@/api/api,output_paths_js=src/js").1 projectFS
  = (Return None,
     <[ ["src"; "js"; "userApi.js"] :=
          File (generateJavaScriptCode
                  (ServiceInfo.mk "User" "userApi" [getUserInfo] "./api"
                     "" ∅)) ]>
       (<[ ["src"; "api"; "userApi.ts"] := File userApi_ts ]> projectFS)).
Proof.
  etrans.
  - apply (generateFrontendApi_writes _ _ [getUserInfo]);
      [reflexivity|done|done|by_compute|..];
      repeat constructor; by vm_compute.
  - by vm_compute.
Defined.

(** ** What the generation never does *)

Lemma onlyFiles_refl paths fs : onlyFiles paths fs fs.
Proof. intros k. by left. Qed.

Lemma onlyFiles_trans paths fs1 fs2 fs3 :
  onlyFiles paths fs1 fs2 → onlyFiles paths fs2 fs3 → onlyFiles paths fs1 fs3.
Proof.
  intros H12 H23 k. destruct (H23 k) as [->|?]; [apply H12|by right].
Qed.

Lemma onlyFiles_weaken paths paths' fs fs' :
  paths ⊆ paths' → onlyFiles paths fs fs' → onlyFiles paths' fs fs'.
Proof.
  intros Hsub H k. destruct (H k) as [?|[? ?]]; [by left|right].
  split; [by apply Hsub|done].
Qed.

Lemma os_WriteFile_onlyFiles name data fs :
  onlyFiles [resolve name] fs (os_WriteFile name data fs).2.
Proof.
  unfold os_WriteFile. case_decide; [apply onlyFiles_refl|].
  destruct (walk fs [] (removelast (resolve name))) as [[|?]|?];
    try apply onlyFiles_refl.
  destruct (fs !! resolve name) as [[|?]|] eqn:Hl; simpl;
    try apply onlyFiles_refl;
    (intros k; destruct (decide (k = resolve name)) as [->|Hne];
     [right; split; [left|]; rewrite lookup_insert_eq; eauto
     |left; by rewrite lookup_insert_ne]).
Qed.

Lemma sub_head {A} (x : A) l : [x] ⊆ x :: l.
Proof. intros y ->%list_elem_of_singleton. left. Qed.

Lemma sub_tail {A} (x : A) (l : list A) : l ⊆ x :: l.
Proof. intros y ?. by right. Qed.

Lemma sub_app_l {A} (l1 l2 : list A) : l1 ⊆ l1 ++ l2.
Proof. intros y ?. apply elem_of_app. by left. Qed.

Lemma sub_app_r {A} (l1 l2 : list A) : l2 ⊆ l1 ++ l2.
Proof. intros y ?. apply elem_of_app. by right. Qed.

Lemma writeTS_onlyFiles config serviceName apiFileName methods typeImports
    targets fs :
  onlyFiles
    ((λ t, resolve (filepath_Join (OutputPathConfig.Path t)
                      (toCamelCase serviceName +:+ "Api.ts"))) <$> targets)
    fs
    (writeTS config serviceName apiFileName methods typeImports targets fs).2.
Proof.
  revert fs. induction targets as [|t targets IH]; intros fs;
    [apply onlyFiles_refl|].
  cbn [writeTS fmap list_fmap].
  destruct (os_Stat (OutputPathConfig.Path t) fs) as [n|err].
  - match goal with
    | |- context [os_WriteFile ?name ?data fs] =>
        pose proof (os_WriteFile_onlyFiles name data fs) as Hw;
        destruct (os_WriteFile name data fs) as [[e|] fs']
    end; simpl in Hw.
    + eapply onlyFiles_weaken; [apply sub_head|exact Hw].
    + eapply onlyFiles_trans.
      * eapply onlyFiles_weaken; [apply sub_head|exact Hw].
      * eapply onlyFiles_weaken; [apply sub_tail|apply IH].
  - destruct (os_IsNotExist err); [|apply onlyFiles_refl].
    eapply onlyFiles_weaken; [apply sub_tail|apply IH].
Qed.

Lemma writeJS_onlyFiles config serviceName apiFileName methods targets fs :
  onlyFiles
    ((λ t, resolve (filepath_Join (OutputPathConfig.Path t)
                      (toCamelCase serviceName +:+ "Api.js"))) <$> targets)
    fs (writeJS config serviceName apiFileName methods targets fs).2.
Proof.
  revert fs. induction targets as [|t targets IH]; intros fs;
    [apply onlyFiles_refl|].
  cbn [writeJS fmap list_fmap].
  destruct (os_Stat (OutputPathConfig.Path t) fs) as [n|err].
  - match goal with
    | |- context [os_WriteFile ?name ?data fs] =>
        pose proof (os_WriteFile_onlyFiles name data fs) as Hw;
        destruct (os_WriteFile name data fs) as [[e|] fs']
    end; simpl in Hw.
    + eapply onlyFiles_weaken; [apply sub_head|exact Hw].
    + eapply onlyFiles_trans.
      * eapply onlyFiles_weaken; [apply sub_head|exact Hw].
      * eapply onlyFiles_weaken; [apply sub_tail|apply IH].
  - destruct (os_IsNotExist err); [|apply onlyFiles_refl].
    eapply onlyFiles_weaken; [apply sub_tail|apply IH].
Qed.

Lemma generateFrontendApi_onlyFiles service config fs :
  onlyFiles (outputFiles service config) fs
    (generateFrontendApi service config fs).2.
Proof.
  unfold generateFrontendApi, outputFiles.
  destruct (methodInfos service) as [methods|]; [|apply onlyFiles_refl].
  repeat case_decide; try apply onlyFiles_refl.
  match goal with
  | |- context [writeTS ?c ?sn ?api ?ms ?ti ?ts fs] =>
      pose proof (writeTS_onlyFiles c sn api ms ti ts fs) as Hts;
      destruct (writeTS c sn api ms ti ts fs) as [[e|] fs1]
  end; simpl in Hts.
  - eapply onlyFiles_weaken; [apply sub_app_l|exact Hts].
  - match goal with
    | |- context [writeJS ?c ?sn ?api ?ms ?ts fs1] =>
        pose proof (writeJS_onlyFiles c sn api ms ts fs1) as Hjs;
        destruct (writeJS c sn api ms ts fs1) as [e fs2]
    end; simpl in Hjs.
    eapply onlyFiles_trans.
    + eapply onlyFiles_weaken; [apply sub_app_l|exact Hts].
    + eapply onlyFiles_weaken; [apply sub_app_r|exact Hjs].
Qed.

(** X11: whatever the service, the configuration and the tree, and however
    the call ends, the generation changes nothing but the files
    [<name>Api.ts] of the typed targets and [<name>Api.js] of the untyped
    ones: every other entry is as before, no entry is removed, and no
    directory is created. *)
Theorem generateFrontendApi_frame service config fs k :
  let fs' := (generateFrontendApi service config fs).2 in
  (k ∉ outputFiles service config → fs' !! k = fs !! k) ∧
  (is_Some (fs !! k) → is_Some (fs' !! k)) ∧
  (fs' !! k = Some Dir → fs !! k = Some Dir).
Proof.
  intros fs'. destruct (generateFrontendApi_onlyFiles service config fs k)
    as [Heq|[Hin [data Hd]]]; fold fs' in Heq || fold fs' in Hd.
  - rewrite Heq. auto.
  - rewrite Hd. split; [done|]. split; [eauto|done].
Qed.

Lemma generateFrontendApi_frame_witness :
  (generateFrontendApi userService (parsePluginOptions typedOptions).1
     staleFS).2 !! ["src"; "api"; "oldApi.ts"]
  = Some (File "export default {};").
Proof.
  destruct (generateFrontendApi_frame userService
              (parsePluginOptions typedOptions).1 staleFS
              ["src"; "api"; "oldApi.ts"]) as [H _].
  rewrite H; [reflexivity|by_compute].
Defined.

(** ** More on the reset of an output directory *)


Lemma clearOutputDir_state dir fs :
  wellFormed fs →
  (clearOutputDir dir fs).2 = fs
  ∨ (is_Some (fs !! resolve dir)
     ∧ (clearOutputDir dir fs).2 = resetDir (resolve dir) fs).
Proof.
  intros Hwf.
  destruct (clearOutputDir_cases dir fs Hwf)
    as [[H _]|[(n & Hstat & H)|(err & _ & _ & H)]]; rewrite H; simpl; auto.
  right. split; [|done]. apply os_Stat_inl in Hstat as [_ ->]. eauto.
Qed.



(** X13: the reset keeps the tree well formed and, however it ends, leaves
    every entry that is not the directory or below it as it was. *)
Theorem clearOutputDir_frame dir fs :
  wellFormed fs →
  wellFormed (clearOutputDir dir fs).2 ∧
  ∀ k, ¬ resolve dir `prefix_of` k →
       (clearOutputDir dir fs).2 !! k = fs !! k.
Proof.
  intros Hwf.
  destruct (clearOutputDir_state dir fs Hwf) as [->|[Hs ->]]; [done|].
  split; [by apply resetDir_wellFormed|].
  intros k Hpre. rewrite resetDir_lookup.
  rewrite decide_False by (intros Heq; apply Hpre; by rewrite Heq).
  by rewrite decide_False.
Qed.

Lemma clearOutputDir_frame_witness :
  (clearOutputDir "src/api" staleFS).2 !! ["notes"] = Some (File "todo").
Proof.
  destruct (clearOutputDir_frame "src/api" staleFS) as [_ H].
  { apply wellFormed_check. by_compute. }
  rewrite H; [reflexivity|by_compute].
Defined.





(** ** The run as a whole *)

Lemma generateFiles_flag files config fs :
  generateFiles files config fs
    = generateFiles (filter (λ f, File.Generate f = true) files) config fs.
Proof.
  revert fs. induction files as [|f files IH]; intros fs; [done|].
  destruct (File.Generate f) eqn:Hg.
  - rewrite filter_cons_True by done. cbn [generateFiles]. rewrite Hg. simpl.
    destruct (generateServices _ _ _) as [[[e|]|] fs']; [done| |done].
    apply IH.
  - rewrite filter_cons_False by (simpl; congruence).
    cbn [generateFiles]. rewrite Hg. apply IH.
Qed.

(** X15: the files of the request that are not marked for generation play
    no part in the run. *)
Theorem run_generate_flag parameter files fs :
  run parameter files fs
    = run parameter (filter (λ f, File.Generate f = true) files) fs.
Proof.
  unfold run. destruct (parsePluginOptions _) as [config [err|]]; [done|].
  destruct (clearOutputDirs _ _ _) as [[e|] fs1]; [done|].
  destruct (clearOutputDirs _ _ _) as [[e|] fs2]; [done|].
  apply generateFiles_flag.
Qed.

Lemma parsePluginOptions_no_error param : (parsePluginOptions param).2 = None.
Proof. unfold parsePluginOptions. by case_decide. Qed.

Lemma generateFrontendApi_no_typed service config fs :
  PluginConfig.OutputPaths config = [] →
  generateFrontendApi service config fs = (Return None, fs)
  ∨ generateFrontendApi service config fs = (Panic, fs).
Proof.
  intros Hts. unfold generateFrontendApi. rewrite Hts.
  destruct (methodInfos service); [|by right].
  left. by repeat case_decide.
Qed.

Lemma generateServices_no_typed services config fs :
  PluginConfig.OutputPaths config = [] →
  generateServices services config fs = (Return None, fs)
  ∨ generateServices services config fs = (Panic, fs).
Proof.
  intros Hts. induction services as [|service services IH]; [by left|].
  cbn [generateServices].
  destruct (generateFrontendApi_no_typed service config fs Hts) as [->| ->];
    [done|by right].
Qed.

Lemma generateFiles_no_typed files config fs :
  PluginConfig.OutputPaths config = [] →
  generateFiles files config fs = (Return None, fs)
  ∨ generateFiles files config fs = (Panic, fs).
Proof.
  intros Hts. induction files as [|f files IH]; [by left|].
  cbn [generateFiles]. destruct (File.Generate f); simpl; [|done].
  destruct (generateServices_no_typed (File.Services f) config fs Hts)
    as [->| ->]; [done|by right].
Qed.

(** X16: when the configuration has no typed target, a run does nothing
    but reset the untyped target directories: the tree it leaves is the one
    these resets leave, so no file is generated for any service; unless a
    nil descriptor is dereferenced, the run returns what the resets
    return. *)
Theorem run_no_typed_targets parameter files fs :
  let config := (parsePluginOptions (default "" parameter)).1 in
  let cleared :=
    clearOutputDirs "清空输出目录失败(JS) %s: %v"
      (PluginConfig.OutputPathsJS config) fs in
  PluginConfig.OutputPaths config = [] →
  (run parameter files fs).2 = cleared.2 ∧
  ((run parameter files fs).1 = Return cleared.1
   ∨ (run parameter files fs).1 = Panic).
Proof.
  intros config cleared Hts. subst cleared. unfold run. fold config.
  pose proof (parsePluginOptions_no_error (default "" parameter)) as Hnil.
  destruct (parsePluginOptions (default "" parameter)) as [c e] eqn:Hp.
  simpl in Hnil, config. subst e config. rewrite Hts. cbn [clearOutputDirs].
  destruct (clearOutputDirs _ (PluginConfig.OutputPathsJS c) fs)
    as [[e|] fs2]; [by auto|].
  destruct (generateFiles_no_typed files c fs2 Hts) as [->| ->]; simpl; auto.
Qed.

Lemma run_no_typed_targets_witness :
  let parameter := Some "output_paths_js=src/api" in
  let cleared :=
    clearOutputDirs "清空输出目录失败(JS) %s: %v"
      (PluginConfig.OutputPathsJS
         (parsePluginOptions "output_paths_js=src/api").1) staleFS in
  (run parameter requestFiles staleFS).2 = cleared.2 ∧
  ((run parameter requestFiles staleFS).1 = Return cleared.1
   ∨ (run parameter requestFiles staleFS).1 = Panic).
Proof.
  apply (run_no_typed_targets (Some "output_paths_js=src/api")
           requestFiles staleFS).
  reflexivity.
Defined.

Lemma clearOutputDirs_failure format targets fs err fs' :
  clearOutputDirs format targets fs = (Some err, fs') →
  ∃ before t after cause fs0,
    targets = before ++ t :: after ∧
    clearOutputDirs format before fs = (None, fs0) ∧
    clearOutputDir (OutputPathConfig.Path t) fs0 = (Some cause, fs') ∧
    err = Errorf format (OutputPathConfig.Path t) cause.
Proof.
  revert fs. induction targets as [|t targets IH]; intros fs; [done|].
  cbn [clearOutputDirs].
  destruct (clearOutputDir (OutputPathConfig.Path t) fs) as [[cause|] fs1]
    eqn:Hc.
  - intros [= <- <-]. by exists [], t, targets, cause, fs.
  - intros (before & t' & after & cause & fs0 & -> & Hb & Ht & ->)%IH.
    exists (t :: before), t', after, cause, fs0.
    split; [done|]. split; [|done]. cbn [clearOutputDirs]. by rewrite Hc.
Qed.

(** X17: when the reset of a typed target directory fails, the run returns
    that error, wrapped with the path of the first target whose reset
    failed, before any file is generated; the targets before that one have
    been reset and stay so, the targets after it and the untyped ones are
    not reset. *)
Theorem run_reset_failure parameter files fs err fs' :
  let config := (parsePluginOptions (default "" parameter)).1 in
  clearOutputDirs "清空输出目录失败 %s: %v"
    (PluginConfig.OutputPaths config) fs = (Some err, fs') →
  run parameter files fs = (Return (Some err), fs') ∧
  ∃ before t after cause fs0,
    PluginConfig.OutputPaths config = before ++ t :: after ∧
    clearOutputDirs "清空输出目录失败 %s: %v" before fs = (None, fs0) ∧
    clearOutputDir (OutputPathConfig.Path t) fs0 = (Some cause, fs') ∧
    err = Errorf "清空输出目录失败 %s: %v" (OutputPathConfig.Path t) cause.
Proof.
  intros config Hc. split; [|by apply clearOutputDirs_failure].
  unfold run. fold config.
  pose proof (parsePluginOptions_no_error (default "" parameter)) as Hnil.
  destruct (parsePluginOptions (default "" parameter)) as [c e].
  simpl in Hnil, config. subst e config. by rewrite Hc.
Qed.

Lemma run_reset_failure_witness :
  run (Some "output_paths=src/api;notes/api;src/js") requestFiles staleFS
  = (Return (Some (Errorf "清空输出目录失败 %s: %v" "notes/api"
                     (PathError "stat" "notes/api" ENOTDIR))),
     resetDir ["src"; "api"] staleFS).
Proof.
  apply (run_reset_failure (Some "output_paths=src/api;notes/api;src/js")
           requestFiles staleFS).
  by vm_compute.
Defined.

(** ** The list grammar read back *)

Lemma stripRune_extend runes l c k :
  stripRune runes l = None → Forall (λ r, c ∉ r) runes →
  stripRune runes (l ++ c :: k) = None.
Proof.
  intros Hn Hc. destruct (stripRune runes (l ++ c :: k)) as [r|] eqn:Hs;
    [exfalso|done].
  apply stripRune_Some in Hs as (p & Hin & Heq).
  apply app_eq_inv in Heq as [(k' & -> & _)|(k' & -> & Hk)].
  - by eapply (stripRune_None runes).
  - destruct k' as [|c' k'].
    + eapply (stripRune_None runes _ _ []); [done..|]. by rewrite !app_nil_r.
    + injection Hk as <- _. rewrite Forall_forall in Hc.
      apply (Hc _ Hin). apply elem_of_app. right. left.
Qed.

Lemma TrimSpace_fixed s :
  stripRune spaceRunes (bytes s) = None →
  stripRune (reverse <$> spaceRunes) (reverse (bytes s)) = None →
  TrimSpace s = s.
Proof.
  intros Hl Hr. unfold TrimSpace, trimRight.
  rewrite (trimLeft_fixed _ _ Hl), (trimLeft_fixed _ _ Hr).
  by rewrite reverse_involutive, ofBytes_bytes.
Qed.

Lemma TrimSpace_no_trailing s :
  stripRune (reverse <$> spaceRunes) (reverse (bytes (TrimSpace s))) = None.
Proof.
  unfold TrimSpace, trimRight. rewrite bytes_ofBytes, reverse_involutive.
  apply trimLeft_done, reversed_nonempty, spaceRunes_nonempty.
Qed.

Lemma TrimSpace_around a c b :
  TrimSpace a = a → TrimSpace b = b →
  Forall (λ r, c ∉ r) spaceRunes →
  TrimSpace (a +:+ String c b) = a +:+ String c b.
Proof.
  intros Ha Hb Hc. apply TrimSpace_fixed.
  - rewrite bytes_app. change (bytes (String c b)) with (c :: bytes b).
    apply stripRune_extend; [|done].
    rewrite <- Ha. apply TrimSpace_no_leading.
  - rewrite bytes_app. change (bytes (String c b)) with (c :: bytes b).
    rewrite reverse_app, reverse_cons.
    rewrite <- (assoc_L (++)). apply stripRune_extend.
    + rewrite <- Hb. apply TrimSpace_no_trailing.
    + apply Forall_fmap. eapply Forall_impl; [done|]. intros r Hr. simpl.
      by rewrite elem_of_reverse.
Qed.

Lemma parseOutputPaths_step_entry t :
  expressible t → parseOutputPaths_step [] (targetEntry t) = [t].
Proof.
  intros (Hp & Hne & _ & Hcolon & Hi & _). destruct t as [path si].
  simpl in *. unfold targetEntry, parseOutputPaths_step.
  cbn [OutputPathConfig.Path OutputPathConfig.ServiceImport].
  destruct (decide (si = "")) as [->|Hsi].
  - rewrite Hp, decide_False by done.
    by rewrite SplitN_2_cut, Cut_absent.
  - change (path +:+ ":" +:+ si) with (path +:+ String ":" si).
    rewrite TrimSpace_around; [|done..|by_compute].
    rewrite decide_False by (destruct path; [done|by rewrite append_String]).
    by rewrite SplitN_2_cut, Cut_first, Hp, Hi.
Qed.

Lemma targetEntry_no_semicolon t :
  expressible t → ";"%char ∉ bytes (targetEntry t).
Proof.
  intros (_ & _ & Hp & _ & _ & Hi). unfold targetEntry.
  case_decide; [done|]. rewrite !bytes_app, !not_elem_of_app.
  split; [done|]. split; [by_compute|done].
Qed.

(** X18: the list grammar reads back what it can express: for targets with
    a non-empty trimmed path free of [;] and [:] and a trimmed override
    free of [;], parsing the entries joined by [;] gives the targets again,
    in the same order. *)
Theorem parseOutputPaths_round_trip targets :
  Forall expressible targets →
  parseOutputPaths (Join (targetEntry <$> targets) ";") = targets.
Proof.
  intros Hall. destruct (decide (targets = [])) as [->|Hne]; [done|].
  unfold parseOutputPaths.
  rewrite (Split_Join (targetEntry <$> targets) ";"%char).
  - clear Hne. induction Hall as [|t targets Ht _ IH]; [done|].
    cbn [fmap list_fmap foldl]. rewrite parseOutputPaths_fold, IH.
    by rewrite parseOutputPaths_step_entry.
  - by destruct targets.
  - apply Forall_fmap. eapply Forall_impl; [done|]. intros t Ht.
    by apply targetEntry_no_semicolon.
Qed.

Lemma parseOutputPaths_round_trip_witness :
  parseOutputPaths "src/api;web/src/api:@/http/client;src/api"
  = [ OutputPathConfig.mk "src/api" "";
      OutputPathConfig.mk "web/src/api" "@/http/client";
      OutputPathConfig.mk "src/api" "" ].
Proof.
  apply (parseOutputPaths_round_trip
           [ OutputPathConfig.mk "src/api" "";
             OutputPathConfig.mk "web/src/api" "@/http/client";
             OutputPathConfig.mk "src/api" "" ]).
  repeat constructor; by_compute.
Defined.
